(** * Diffusion maps: kernel construction, row normalisation, subsampling

    A shallow embedding of [diffusion_maps/diffusion_maps.py].

    Numbers.  NumPy's [float64] is idealised: a value is a real number
    or one of the IEEE special values (the two infinities and NaN).
    Division by zero and the arithmetic of the special values follow
    IEEE 754, which is what NumPy does (it warns, it does not raise), and
    [np.exp] underflows to 0.0 and overflows to infinity where the
    float64 exponential does.  Rounding, the overflow of sums, products
    and quotients and the sign of zero are not modelled, so the
    statements below that speak of values are kept to what rounding
    leaves true: ranges, order and tolerances, not exact equalities of
    computed numbers.

    Matrices.  A [scipy.sparse.csr_matrix] is the record of its four
    attributes [shape], [data], [indices] and [indptr].

    Effects.  [make_stochastic_matrix] updates [matrix.data] in place and
    returns [None]; it is modelled by the matrix after the call together
    with the outcome of the call (normal return or the exception
    raised). *)

From Stdlib Require Import Reals Lra Lia List Bool Arith PeanoNat.
From Stdlib Require Import Sorting.Sorted Sorting.Permutation Sorting.Mergesort.
Import ListNotations.

Set Implicit Arguments.

(** ** Outcomes of a call *)

(** The exceptions of the Python code ([AssertionError] of [assert],
    [ValueError] of a failed tuple unpacking, [IndexError] of an index out
    of range) and the error classes of the specification. *)
Inductive error : Type :=
  | AssertionError
  | ValueError
  | IndexError
  | ConfigurationError
  | InputError
  | NumericalFault.

Inductive result (A : Type) : Type :=
  | Ok (a : A)
  | Err (e : error).

Arguments Ok {A} a.
Arguments Err {A} e.

Definition bind {A B : Type} (r : result A) (k : A -> result B) : result B :=
  match r with
  | Ok a => k a
  | Err e => Err e
  end.

Notation "x <- r ;; k" := (bind r (fun x => k))
  (at level 61, r at next level, right associativity).

(** ** Idealised float64 *)

Module Float.

Inductive float : Type :=
    | Finite (x : R)
    | Inf (negative : bool)
    | NaN.

Definition is_negative (x : R) : bool :=
    if Rlt_dec x 0 then true else false.

Definition is_zero (x : R) : bool :=
    if Req_dec_T x 0 then true else false.

Definition neg (x : float) : float :=
    match x with
    | Finite a => Finite (- a)
    | Inf s => Inf (negb s)
    | NaN => NaN
    end.

Definition add (x y : float) : float :=
    match x, y with
    | NaN, _ | _, NaN => NaN
    | Finite a, Finite b => Finite (a + b)
    | Inf s, Finite _ | Finite _, Inf s => Inf s
    | Inf s, Inf t => if Bool.eqb s t then Inf s else NaN
    end.

Definition mul (x y : float) : float :=
    match x, y with
    | NaN, _ | _, NaN => NaN
    | Finite a, Finite b => Finite (a * b)
    | Inf s, Finite b | Finite b, Inf s =>
        if is_zero b then NaN else Inf (xorb s (is_negative b))
    | Inf s, Inf t => Inf (xorb s t)
    end.

Definition div (x y : float) : float :=
    match x, y with
    | NaN, _ | _, NaN => NaN
    | Finite a, Finite b =>
        if is_zero b
        then (if is_zero a then NaN else Inf (is_negative a))
        else Finite (a / b)
    | Finite _, Inf _ => Finite 0
    | Inf s, Finite b => Inf (xorb s (is_negative b))
    | Inf _, Inf _ => NaN
    end.

(** [np.square] *)
Definition square (x : float) : float := mul x x.

(** The float64 exponential gives 0.0 below [exp_underflow] (the
    exponential is then under half the least positive float64) and
    infinity above [exp_overflow] (it is then over the greatest
    float64). *)
Definition exp_underflow : R := (-7451332191019411 / 10000000000000)%R.

Definition exp_overflow : R := (709782712893384 / 1000000000000)%R.

(** [np.exp] *)
Definition exp (x : float) : float :=
    match x with
    | Finite a =>
        if Rlt_dec a exp_underflow then Finite 0
        else if Rlt_dec exp_overflow a then Inf false
        else Finite (Rtrigo_def.exp a)
    | Inf true => Finite 0
    | Inf false => Inf false
    | NaN => NaN
    end.

(** [np.sum] of a one-dimensional array; the sum of no element is [0.0]. *)
Definition sum (l : list float) : float :=
    fold_left add l (Finite 0).

Definition finite (x : float) : Prop :=
    match x with
    | Finite _ => True
    | _ => False
    end.

(** The real number a finite value stands for. *)
Definition val (x : float) : R :=
    match x with
    | Finite a => a
    | _ => 0%R
    end.

End Float.

Import Float.

(** ** Slices of a one-dimensional array *)

(** [l[a:b]] for non-negative [a] and [b]: Python clamps both bounds to
    the length and gives the empty list when [b <= a]. *)
Definition slice {A : Type} (a b : nat) (l : list A) : list A :=
  firstn (b - a) (skipn a l).

(** [l[a:b] = f(l[a:b])] elementwise, in place. *)
Definition update_slice {A : Type} (a b : nat) (f : A -> A) (l : list A)
  : list A :=
  firstn a l ++ map f (slice a b l) ++ skipn (a + (b - a)) l.

(** ** Compressed sparse row matrices *)

Record csr_matrix : Type := {
  shape : nat * nat;
  data : list float;
  indices : list nat;
  indptr : list nat
}.

(** [matrix._with_data(data, copy=True)]: the same sparsity structure
    (copies of [indices] and [indptr], the same [shape]) around the
    given values. *)
Definition _with_data (matrix : csr_matrix) (new_data : list float)
  : csr_matrix :=
  {| shape := shape matrix;
     data := new_data;
     indices := indices matrix;
     indptr := indptr matrix |}.

(** The part of an array that belongs to row [i]:
    [l[indptr[i]:indptr[i+1]]]; the columns of the stored positions of
    row [i] are that part of [indices]. *)
Definition row_slice {A : Type} (indptr : list nat) (i : nat) (l : list A)
  : list A :=
  slice (nth i indptr 0) (nth (S i) indptr 0) l.

Definition row_columns (m : csr_matrix) (i : nat) : list nat :=
  row_slice (indptr m) i (indices m).

(** The stored values of row [i]: [data[indptr[i]:indptr[i+1]]]. *)
Definition row_values (m : csr_matrix) (i : nat) : list float :=
  row_slice (indptr m) i (data m).

(** The stored (row, column) positions, row by row. *)
Definition stored_positions (m : csr_matrix) : list (nat * nat) :=
  flat_map (fun i => map (pair i) (row_columns m i)) (seq 0 (fst (shape m))).

(** The value stored at (i, j), if that position is stored: the first
    entry of row [i] whose column is [j]. *)
Fixpoint find_column (j : nat) (cols : list nat) (vals : list float)
  : option float :=
  match cols, vals with
  | c :: cols', v :: vals' =>
      if Nat.eqb c j then Some v else find_column j cols' vals'
  | _, _ => None
  end.

Definition stored_entry (m : csr_matrix) (i j : nat) : option float :=
  find_column j (row_columns m i) (row_values m i).

(** A matrix as SciPy builds it: [indptr] has one more element than
    there are rows, starts at 0, does not decrease and ends at the number
    of stored entries; every column is inside the shape. *)
Definition nondecreasing (l : list nat) : Prop :=
  forall i j, i <= j -> j < length l -> nth i l 0 <= nth j l 0.

Record well_formed (m : csr_matrix) : Prop := {
  wf_indptr_length : length (indptr m) = S (fst (shape m));
  wf_indptr_first : nth 0 (indptr m) 0 = 0;
  wf_indptr_last : nth (fst (shape m)) (indptr m) 0 = length (data m);
  wf_indptr_mono : nondecreasing (indptr m);
  wf_indices_length : length (indices m) = length (data m);
  wf_indices_range : Forall (fun j => j < snd (shape m)) (indices m)
}.

(** ** The module's functions *)

(** [make_stochastic_matrix]: the body of the loop for row [i], then the
    loop over [range(matrix.shape[0])].  The unpacking
    [a, b = indptr[i:i+2]] raises [ValueError] unless the slice has two
    elements. *)
Fixpoint normalize_rows (indptr : list nat) (rows : list nat)
  (data : list float) : list float * result unit :=
  match rows with
  | [] => (data, Ok tt)
  | i :: rows' =>
      match slice i (i + 2) indptr with
      | [a; b] =>
          let norm1 := Float.sum (slice a b data) in
          normalize_rows indptr rows'
            (update_slice a b (fun x => Float.div x norm1) data)
      | _ => (data, Err ValueError)
      end
  end.

Definition make_stochastic_matrix (matrix : csr_matrix)
  : csr_matrix * result unit :=
  let (data', outcome) :=
    normalize_rows (indptr matrix) (seq 0 (fst (shape matrix)))
      (data matrix) in
  (_with_data matrix data', outcome).

Module DiffusionMaps.

(** [__get_cut_off] *)
Definition __get_cut_off (epsilon : float) : float :=
    Float.mul (Finite 2) epsilon.

(** [kernel_function], on one element and on an array. *)
Definition kernel (epsilon : float) (distance : float) : float :=
    Float.exp
      (Float.div (Float.neg (Float.square distance))
         (Float.mul (Finite 2) epsilon)).

Definition kernel_function (epsilon : float) (distances : list float)
    : list float :=
    map (kernel epsilon) distances.

(** [_compute_kernel_matrix] *)
Definition _compute_kernel_matrix (epsilon : float)
    (distance_matrix : csr_matrix) : csr_matrix :=
    let data := data distance_matrix in
    let transformed_data := kernel_function epsilon data in
    let kernel_matrix := _with_data distance_matrix transformed_data in
    kernel_matrix.


(** The object after construction: the attributes [epsilon], [_cut_off],
    [kernel_matrix], [eigenvalues] and [eigenvectors]; [_kdtree], an
    object of SciPy, is left out.  Eigenvalues and the coordinates of
    eigenvectors are taken real. *)
Record t : Type := {
  epsilon : float;
  _cut_off : float;
  kernel_matrix : csr_matrix;
  eigenvalues : list R;
  eigenvectors : list (list R)
}.

Section Init.

(** What [__init__] calls outside this module: the neighbour search
    ([cKDTree(points, **kdtree_options)], its [sparse_distance_matrix] at
    the cut-off and [utils.coo_tocsr]), taken together, and the
    eigensolver selected by [use_cuda]. *)
Variables point_t options_t : Type.
Variable sparse_distance_matrix :
  list point_t -> options_t -> float -> result csr_matrix.
Variable eigensolver :
  bool -> csr_matrix -> nat -> result (list R * list (list R)).

(** The cut-off [__init__] stores. *)
Definition init_cut_off (epsilon : float) (cut_off : option float) : float :=
  match cut_off with
  | None => __get_cut_off epsilon
  | Some c => c
  end.

(** The kernel matrix [__init__] stores: the normalisation runs when
    [normalize_kernel is True], and an exception it raises leaves
    [__init__]. *)
Definition init_kernel_matrix (epsilon : float) (normalize_kernel : bool)
  (distance_matrix : csr_matrix) : result csr_matrix :=
  let kernel_matrix := _compute_kernel_matrix epsilon distance_matrix in
  if normalize_kernel
  then
    let (kernel_matrix', outcome) := make_stochastic_matrix kernel_matrix in
    _ <- outcome ;; Ok kernel_matrix'
  else Ok kernel_matrix.

(** [__init__] *)
Definition __init__ (points : list point_t) (epsilon : float)
  (cut_off : option float) (num_eigenpairs : nat) (normalize_kernel : bool)
  (kdtree_options : options_t) (use_cuda : bool) : result t :=
  let cut := init_cut_off epsilon cut_off in
  distance_matrix <- sparse_distance_matrix points kdtree_options cut ;;
  kernel_matrix <- init_kernel_matrix epsilon normalize_kernel
                     distance_matrix ;;
  pairs <- eigensolver use_cuda kernel_matrix num_eigenpairs ;;
  Ok {| epsilon := epsilon;
        _cut_off := cut;
        kernel_matrix := kernel_matrix;
        eigenvalues := fst pairs;
        eigenvectors := snd pairs |}.

End Init.

End DiffusionMaps.

(** ** [downsample] *)

Section Downsample.

Variable row : Type.

(** [np.random.choice(range(n), num_samples, replace=False)]: the indices
    drawn by the generator. *)
Variable random_choice : nat -> nat -> list nat.

(** [data[indices, :]]: the rows at the given indices, in the order of the
    indices; an index outside the array raises [IndexError]. *)
Fixpoint take_rows (data : list row) (indices : list nat)
  : result (list row) :=
  match indices with
  | [] => Ok []
  | i :: indices' =>
      match nth_error data i with
      | Some x => xs <- take_rows data indices' ;; Ok (x :: xs)
      | None => Err IndexError
      end
  end.

Definition downsample (data : list row) (num_samples : nat)
  : result (list row) :=
  if num_samples <=? length data
  then
    let indices :=
      NatSort.sort (random_choice (length data) num_samples) in
    take_rows data indices
  else Err AssertionError.

End Downsample.

(** What NumPy promises of a draw of [k] among [range(n)] without
    replacement: [k] indices below [n], no two the same. *)
Definition drawn_without_replacement (n k : nat) (l : list nat) : Prop :=
  length l = k /\ NoDup l /\ Forall (fun i => i < n) l.

(** ** Statements about matrices *)

(** A finite value that is not negative. *)
Definition nonnegative (x : float) : Prop :=
  match x with
  | Finite r => (0 <= r)%R
  | _ => False
  end.

(** A finite value between 0 and 1. *)
Definition probability (x : float) : Prop :=
  match x with
  | Finite r => (0 <= r <= 1)%R
  | _ => False
  end.

(** The largest bandwidth the statements on kernel values are made for:
    up to it neither [2.0 * epsilon] nor a squared distance within
    [1400 epsilon] overflows float64. *)
Definition max_epsilon : R := 1e300%R.

(** All stored values are finite. *)
Definition finite_data (m : csr_matrix) : Prop :=
  Forall Float.finite (data m).

(** All stored values are distances: finite and not negative. *)
Definition is_distance (d : float) : Prop :=
  match d with
  | Finite r => (0 <= r)%R
  | _ => False
  end.

(** The sum of the reals of a list. *)
Definition Rsum (l : list R) : R := fold_right Rplus 0%R l.

(** The sum of the stored values of row [i], as a real. *)
Definition row_sum (m : csr_matrix) (i : nat) : R :=
  Rsum (map Float.val (row_values m i)).



(** A matrix whose rows are probability vectors: every row stores as
    many columns as values, all inside the matrix, and its values are
    finite, not negative and sum to 1. *)
Definition row_stochastic (m : csr_matrix) : Prop :=
  forall i, i < fst (shape m) ->
    length (row_columns m i) = length (row_values m i) /\
    Forall (fun j => j < fst (shape m)) (row_columns m i) /\
    Forall nonnegative (row_values m i) /\
    row_sum m i = 1%R.

(** ** The eigensolver *)

(** The product of row [i] of the matrix with a vector. *)
Definition row_dot (m : csr_matrix) (i : nat) (v : list R) : R :=
  Rsum (map (fun cx => (Float.val (snd cx) * nth (fst cx) v 0)%R)
          (combine (row_columns m i) (row_values m i))).

Definition matvec (m : csr_matrix) (v : list R) : list R :=
  map (fun i => row_dot m i v) (seq 0 (fst (shape m))).

(** [v] is an eigenvector of the matrix for the real eigenvalue [lam]. *)
Definition eigenvector (m : csr_matrix) (lam : R) (v : list R) : Prop :=
  length v = fst (shape m) /\
  (exists i, nth i v 0%R <> 0%R) /\
  matvec m v = map (Rmult lam) v.

Definition eigenvalue (m : csr_matrix) (lam : R) : Prop :=
  exists v, eigenvector m lam v.

Definition unit_norm (v : list R) : Prop :=
  Rsum (map (fun x => (x * x)%R) v) = 1%R.

Definition descending (l : list R) : Prop :=
  StronglySorted Rge l.

(** Modelled from the spec: the eigensolver modules ([cpu_eigensolver],
    [gpu_eigensolver]) that [__init__] imports are missing from the
    sources.  The specification's contract of the solver: asked for [k]
    eigenpairs of an N x N matrix, it fails with a configuration error
    when [k > N]; otherwise it fails (backend unavailable: configuration
    error; no convergence: numerical fault) or returns exactly [k] pairs
    of an eigenvalue and a unit-norm eigenvector, sorted by descending
    eigenvalue, which are the top [k]: an eigenvalue of the matrix that
    is not returned is at most every returned one. *)
Definition eigensolver_contract (matrix : csr_matrix) (k : nat)
  (r : result (list R * list (list R))) : Prop :=
  if fst (shape matrix) <? k
  then r = Err ConfigurationError
  else
    match r with
    | Err e => e = ConfigurationError \/ e = NumericalFault
    | Ok (ew, ev) =>
        length ew = k /\
        length ev = k /\
        descending ew /\
        (forall i, i < k ->
           eigenvector matrix (nth i ew 0%R) (nth i ev []) /\
           unit_norm (nth i ev [])) /\
        (forall mu, eigenvalue matrix mu ->
           In mu ew \/ forall lam, In lam ew -> (mu <= lam)%R)
    end.

(** ** Example matrices *)

(** The distance graph of the four collinear points 0, 1, 2, 3 at the
    cut-off 2: every point is stored with the points at distance at most
    2, itself included. *)
Definition collinear_distances : csr_matrix :=
  {| shape := (4, 4);
     data := map Finite [0; 1; 2;  1; 0; 1; 2;  2; 1; 0; 1;  2; 1; 0]%R;
     indices := [0; 1; 2;  0; 1; 2; 3;  0; 1; 2; 3;  1; 2; 3];
     indptr := [0; 3; 7; 11; 14] |}.

(** The distance graph of a single point, which is also a 1 x 1 matrix
    whose only row stores the value 0. *)
Definition zero_row : csr_matrix :=
  {| shape := (1, 1);
     data := [Finite 0];
     indices := [0];
     indptr := [0; 1] |}.

(** A draw of the generator: three indices among [range(5)]. *)
Definition example_draw (n k : nat) : list nat := [3; 0; 2].

(** A 3 x 3 matrix of positive weights on a band. *)
Definition example_weights : csr_matrix :=
  {| shape := (3, 3);
     data := map Finite [2; 1;  1; 2; 1;  1; 2]%R;
     indices := [0; 1;  0; 1; 2;  1; 2];
     indptr := [0; 2; 5; 7] |}.

(** A 1 x 2 distance matrix in which one stored value is NaN. *)
Definition poisoned_distances : csr_matrix :=
  {| shape := (1, 2);
     data := [Finite 0; NaN];
     indices := [0; 1];
     indptr := [0; 2] |}.

(** A matrix whose [indptr] lacks the end of its second row. *)
Definition short_indptr : csr_matrix :=
  {| shape := (2, 2);
     data := [Finite 1; Finite 3];
     indices := [0; 1];
     indptr := [0; 2] |}.

(** A draw of all three indices among [range(3)]. *)
Definition example_draw_all (n k : nat) : list nat := [2; 0; 1].

(** The draw [example_draw] in another order. *)
Definition example_draw_shuffled (n k : nat) : list nat := [0; 2; 3].

(** The distance graph of the two points 0 and 800 at the cut-off 800,
    the default for the bandwidth 400. *)
Definition far_points_distances : csr_matrix :=
  {| shape := (2, 2);
     data := map Finite [0; 800;  800; 0]%R;
     indices := [0; 1;  0; 1];
     indptr := [0; 2; 4] |}.

(** The distance graph of the two points 0 and 1 at the cut-off 2, the
    default for the bandwidth 1. *)
Definition two_points_distances : csr_matrix :=
  {| shape := (2, 2);
     data := map Finite [0; 1;  1; 0]%R;
     indices := [0; 1;  0; 1];
     indptr := [0; 2; 4] |}.

(** The kernel value of the two points for the bandwidth 1, and their
    normalised kernel matrix. *)
Definition two_points_affinity : R := Rtrigo_def.exp (- (1 / 2)).

Definition two_points_matrix : csr_matrix :=
  _with_data two_points_distances
    (map Finite
       [1 / (1 + two_points_affinity);
        two_points_affinity / (1 + two_points_affinity);
        two_points_affinity / (1 + two_points_affinity);
        1 / (1 + two_points_affinity)]%R).

(** The neighbour search on the data set of the points 0 and 1. *)
Definition two_points_search (points : list R) (options : unit)
  (cut_off : float) : result csr_matrix :=
  Ok two_points_distances.

(** A solver for the 2 x 2 matrices with rows (a, b) and (b, a), [b]
    not negative: the eigenvalues are [a + b] and [a - b], for the unit
    vectors along (1, 1) and (1, -1). *)
Definition symmetric_pair_solver (use_cuda : bool) (matrix : csr_matrix)
  (k : nat) : result (list R * list (list R)) :=
  if fst (shape matrix) <? k
  then Err ConfigurationError
  else
    let a := Float.val (nth 0 (data matrix) NaN) in
    let b := Float.val (nth 1 (data matrix) NaN) in
    Ok (firstn k [a + b; a - b]%R,
        firstn k [[/ sqrt 2; / sqrt 2]; [/ sqrt 2; - / sqrt 2]]%R).

(** The neighbour search on the data set of one point: whatever the
    cut-off, the point is stored with itself at distance 0. *)
Definition single_point_search (points : list unit) (options : unit)
  (cut_off : float) : result csr_matrix :=
  Ok zero_row.

(** A solver for 1 x 1 matrices storing the value 1, whose only eigenpair
    is the eigenvalue 1 with the eigenvector (1). *)
Definition single_point_solver (use_cuda : bool) (matrix : csr_matrix)
  (k : nat) : result (list R * list (list R)) :=
  if fst (shape matrix) <? k
  then Err ConfigurationError
  else Ok (repeat 1%R k, repeat [1%R] k).

(** * Properties *)

(** ** Arithmetic of finite values *)

Lemma is_zero_false (x : R) : x <> 0%R -> Float.is_zero x = false.
Proof.
  intros Hx. unfold Float.is_zero.
  destruct (Req_dec_T x 0) as [E | _]; [contradiction | reflexivity].
Qed.

Lemma is_zero_true : Float.is_zero 0 = true.
Proof.
  unfold Float.is_zero.
  destruct (Req_dec_T 0 0) as [_ | N]; [reflexivity | now destruct N].
Qed.

Lemma div_finite (a b : R) :
  b <> 0%R -> Float.div (Finite a) (Finite b) = Finite (a / b).
Proof. intros Hb. simpl. now rewrite is_zero_false. Qed.

Lemma exp_monotone (x y : R) :
  (x <= y)%R -> (Rtrigo_def.exp x <= Rtrigo_def.exp y)%R.
Proof.
  intros [Hlt | Heq].
  - left. now apply exp_increasing.
  - subst. right. reflexivity.
Qed.

(** ** The exponential and the kernel on finite values *)

Lemma exp_nonpos (a : R) :
  (a <= 0)%R ->
  exists v,
    Float.exp (Finite a) = Finite v /\
    (0 <= v <= 1)%R /\
    ((Float.exp_underflow <= a)%R -> (0 < v)%R) /\
    ((a < Float.exp_underflow)%R -> v = 0%R).
Proof.
  intros Ha. unfold Float.exp.
  destruct (Rlt_dec a Float.exp_underflow) as [Hu | Hu].
  - exists 0%R. repeat split; intros; lra.
  - destruct (Rlt_dec Float.exp_overflow a) as [Ho | Ho].
    + unfold Float.exp_overflow in Ho. lra.
    + exists (Rtrigo_def.exp a).
      pose proof (exp_pos a) as Hpos.
      assert (Hle : (Rtrigo_def.exp a <= 1)%R)
        by (rewrite <- exp_0; now apply exp_monotone).
      repeat split; intros; lra.
Qed.

Lemma exp_nonpos_monotone (a b : R) :
  (a <= b)%R -> (b <= 0)%R ->
  (Float.val (Float.exp (Finite a)) <= Float.val (Float.exp (Finite b)))%R.
Proof.
  intros Hab Hb. unfold Float.exp.
  assert (Hover : ~ (Float.exp_overflow < a)%R /\
                  ~ (Float.exp_overflow < b)%R)
    by (unfold Float.exp_overflow; split; lra).
  destruct Hover as [Hoa Hob].
  destruct (Rlt_dec a Float.exp_underflow) as [Hua | Hua];
    destruct (Rlt_dec b Float.exp_underflow) as [Hub | Hub];
    try (destruct (Rlt_dec Float.exp_overflow a) as [H | _];
         [contradiction |]);
    try (destruct (Rlt_dec Float.exp_overflow b) as [H | _];
         [contradiction |]);
    simpl; try lra.
  - left. apply exp_pos.
  - now apply exp_monotone.
Qed.

Lemma kernel_exponent (eps d : R) :
  eps <> 0%R ->
  DiffusionMaps.kernel (Finite eps) (Finite d)
  = Float.exp (Finite (- (d * d) / (2 * eps))).
Proof.
  intros Heps. unfold DiffusionMaps.kernel.
  unfold Float.square, Float.mul, Float.neg.
  rewrite div_finite by lra. reflexivity.
Qed.

Lemma kernel_exponent_nonpos (eps d : R) :
  (0 < eps)%R -> (- (d * d) / (2 * eps) <= 0)%R.
Proof.
  intros Heps.
  assert (Hsq : (0 <= d * d)%R) by nra.
  assert (Hinv : (0 < / (2 * eps))%R) by (apply Rinv_0_lt_compat; lra).
  unfold Rdiv. nra.
Qed.

Lemma kernel_exponent_bounds (eps d c : R) :
  (0 < eps)%R ->
  ((d * d <= 2 * c * eps)%R -> (- c <= - (d * d) / (2 * eps))%R) /\
  ((2 * c * eps <= d * d)%R -> (- (d * d) / (2 * eps) <= - c)%R).
Proof.
  intros Heps.
  assert (Hinv : (0 < / (2 * eps))%R) by (apply Rinv_0_lt_compat; lra).
  assert (Hone : (2 * eps * / (2 * eps) = 1)%R)
    by (apply Rinv_r; lra).
  unfold Rdiv. split; intros H.
  - replace (- c)%R with (- (2 * c * eps) * / (2 * eps))%R
      by (field; lra).
    apply Rmult_le_compat_r; lra.
  - replace (- c)%R with (- (2 * c * eps) * / (2 * eps))%R
      by (field; lra).
    apply Rmult_le_compat_r; lra.
Qed.

Lemma kernel_unit_interval (eps d : R) :
  (0 < eps)%R ->
  exists v,
    DiffusionMaps.kernel (Finite eps) (Finite d) = Finite v /\
    (0 <= v <= 1)%R /\
    ((d * d <= 1400 * eps)%R -> (0 < v)%R) /\
    ((1500 * eps <= d * d)%R -> v = 0%R).
Proof.
  intros Heps. rewrite kernel_exponent by lra.
  destruct (exp_nonpos (kernel_exponent_nonpos d Heps))
    as [v [Hv [Hrange [Hpos Hzero]]]].
  exists v. repeat split; try assumption; try lra.
  - intros Hd. apply Hpos.
    destruct (kernel_exponent_bounds d 700 Heps) as [Hlow _].
    unfold Float.exp_underflow.
    apply Rle_trans with (- 700)%R; [lra | apply Hlow; lra].
  - intros Hd. apply Hzero.
    destruct (kernel_exponent_bounds d 750 Heps) as [_ Hhigh].
    unfold Float.exp_underflow.
    apply Rle_lt_trans with (- 750)%R; [apply Hhigh; lra | lra].
Qed.

Lemma kernel_antitone (eps d1 d2 : R) :
  (0 < eps)%R -> (0 <= d1)%R -> (d1 <= d2)%R ->
  (Float.val (DiffusionMaps.kernel (Finite eps) (Finite d2))
   <= Float.val (DiffusionMaps.kernel (Finite eps) (Finite d1)))%R.
Proof.
  intros Heps H0 Hle. rewrite !kernel_exponent by lra.
  apply exp_nonpos_monotone; [| now apply kernel_exponent_nonpos].
  assert (Hsq : (d1 * d1 <= d2 * d2)%R) by nra.
  assert (Hinv : (0 < / (2 * eps))%R) by (apply Rinv_0_lt_compat; lra).
  unfold Rdiv. nra.
Qed.

Lemma kernel_zero (eps : R) :
  (0 < eps)%R -> DiffusionMaps.kernel (Finite eps) (Finite 0) = Finite 1.
Proof.
  intros Heps. rewrite kernel_exponent by lra.
  replace (- (0 * 0) / (2 * eps))%R with 0%R by (field; lra).
  unfold Float.exp, Float.exp_underflow, Float.exp_overflow.
  destruct (Rlt_dec 0 (-7451332191019411 / 10000000000000)) as [H | _];
    [lra |].
  destruct (Rlt_dec (709782712893384 / 1000000000000) 0) as [H | _];
    [lra |].
  now rewrite exp_0.
Qed.

Lemma kernel_nonnegative (eps : R) (d : float) :
  (0 < eps)%R -> Float.finite d ->
  nonnegative (DiffusionMaps.kernel (Finite eps) d).
Proof.
  intros Heps Hd. destruct d as [r | s | ]; simpl in Hd; try contradiction.
  destruct (kernel_unit_interval r Heps) as [v [-> [Hv _]]]. simpl. lra.
Qed.

Lemma is_distance_finite (d : float) :
  is_distance d -> exists r, d = Finite r /\ (0 <= r)%R.
Proof.
  destruct d as [r | s | ]; simpl; intros H; try contradiction.
  now exists r.
Qed.

(** ** The kernel matrix *)

Lemma kernel_matrix_data (eps : float) (dm : csr_matrix) :
  data (DiffusionMaps._compute_kernel_matrix eps dm)
  = map (DiffusionMaps.kernel eps) (data dm).
Proof. reflexivity. Qed.

(** ** Slices *)

Lemma length_slice (A : Type) (a b : nat) (l : list A) :
  length (slice a b l) = Nat.min (b - a) (length l - a).
Proof. unfold slice. now rewrite length_firstn, length_skipn. Qed.

Lemma nth_error_slice (A : Type) (a b : nat) (l : list A) (k : nat) :
  nth_error (slice a b l) k
  = if k <? b - a then nth_error l (a + k) else None.
Proof. unfold slice. now rewrite nth_error_firstn, nth_error_skipn. Qed.

Lemma nth_error_beyond (A : Type) (l : list A) (k : nat) :
  length l <= k -> nth_error l k = None.
Proof. apply nth_error_None. Qed.

Lemma nth_error_update_slice (A : Type) (a b : nat) (f : A -> A)
  (l : list A) (k : nat) :
  nth_error (update_slice a b f l) k
  = if (a <=? k) && (k <? b) then option_map f (nth_error l k)
    else nth_error l k.
Proof.
  unfold update_slice.
  rewrite !nth_error_app, length_firstn, length_map, length_slice.
  rewrite nth_error_firstn, nth_error_map, nth_error_slice, nth_error_skipn.
  destruct (Nat.leb_spec a k) as [Hak | Hak];
    destruct (Nat.ltb_spec k b) as [Hkb | Hkb]; simpl;
    destruct (Nat.ltb_spec k (Nat.min a (length l))) as [H1 | H1];
    try (destruct (Nat.ltb_spec k a) as [H2 | H2]);
    try lia; try reflexivity.
  all: try (destruct (Nat.ltb_spec (k - Nat.min a (length l))
              (Nat.min (b - a) (length l - a))) as [H3 | H3]).
  all: try (destruct (Nat.ltb_spec (k - Nat.min a (length l)) (b - a))
              as [H4 | H4]).
  all: try lia.
  all: try (f_equal; f_equal; lia).
  all: try (rewrite !nth_error_beyond by lia; reflexivity).
  all: try (symmetry; apply nth_error_beyond; lia).
  destruct (Nat.le_gt_cases (length l) k) as [Hlen | Hlen].
  - rewrite !nth_error_beyond by lia. reflexivity.
  - f_equal. lia.
Qed.

Lemma length_update_slice (A : Type) (a b : nat) (f : A -> A) (l : list A) :
  length (update_slice a b f l) = length l.
Proof.
  unfold update_slice.
  rewrite !length_app, length_firstn, length_map, length_slice, length_skipn.
  lia.
Qed.

Lemma slice_update_slice_same (A : Type) (a b : nat) (f : A -> A)
  (l : list A) :
  slice a b (update_slice a b f l) = map f (slice a b l).
Proof.
  apply nth_error_ext. intros k.
  rewrite nth_error_map, !nth_error_slice, nth_error_update_slice.
  destruct (Nat.ltb_spec k (b - a)) as [Hk | Hk]; [| reflexivity].
  destruct (Nat.leb_spec a (a + k)) as [_ | H]; [| lia].
  destruct (Nat.ltb_spec (a + k) b) as [_ | H]; [| lia].
  reflexivity.
Qed.

Lemma slice_update_slice_frame (A : Type) (a b a' b' : nat) (f : A -> A)
  (l : list A) :
  b' <= a \/ b <= a' ->
  slice a' b' (update_slice a b f l) = slice a' b' l.
Proof.
  intros Hdisjoint. apply nth_error_ext. intros k.
  rewrite !nth_error_slice, nth_error_update_slice.
  destruct (Nat.ltb_spec k (b' - a')) as [Hk | Hk]; [| reflexivity].
  destruct (Nat.leb_spec a (a' + k)) as [H1 | H1]; [| reflexivity].
  destruct (Nat.ltb_spec (a' + k) b) as [H2 | H2]; [lia | reflexivity].
Qed.

Lemma skipn_two (A : Type) (d : A) (l : list A) (i : nat) :
  S i < length l ->
  firstn 2 (skipn i l) = [nth i l d; nth (S i) l d].
Proof.
  revert i. induction l as [| x l IH]; intros i Hi; simpl in Hi; [lia |].
  destruct i as [| i].
  - destruct l as [| y l]; simpl in *; [lia | reflexivity].
  - simpl skipn. rewrite IH by lia. reflexivity.
Qed.

Lemma slice_unpack (l : list nat) (i : nat) :
  S i < length l ->
  slice i (i + 2) l = [nth i l 0; nth (S i) l 0].
Proof.
  intros Hi. unfold slice.
  replace (i + 2 - i) with 2 by lia.
  now apply skipn_two.
Qed.

(** ** Sums of finite values *)

Lemma fold_add_finite (l : list float) (acc : R) :
  Forall Float.finite l ->
  fold_left Float.add l (Finite acc)
  = Finite (acc + Rsum (map Float.val l)).
Proof.
  intros Hl. revert acc.
  induction Hl as [| x l Hx _ IH]; intros acc; simpl.
  - f_equal. lra.
  - destruct x as [r | s | ]; simpl in Hx; try contradiction.
    simpl. rewrite IH. f_equal. lra.
Qed.

Lemma sum_finite (l : list float) :
  Forall Float.finite l ->
  Float.sum l = Finite (Rsum (map Float.val l)).
Proof.
  intros Hl. unfold Float.sum. rewrite fold_add_finite by assumption.
  f_equal. lra.
Qed.

Lemma normalized_sum (l : list float) (s : R) :
  s <> 0%R ->
  Forall Float.finite l ->
  Rsum (map Float.val (map (fun x => Float.div x (Finite s)) l))
  = (Rsum (map Float.val l) / s)%R.
Proof.
  intros Hs Hl. induction Hl as [| x l Hx _ IH]; simpl.
  - unfold Rdiv. lra.
  - destruct x as [r | b | ]; simpl in Hx; try contradiction.
    rewrite div_finite by assumption. simpl. rewrite IH. field. exact Hs.
Qed.

(** ** Row normalisation *)

Lemma normalize_rows_length (ptr rows : list nat) (d : list float) :
  length (fst (normalize_rows ptr rows d)) = length d.
Proof.
  revert d. induction rows as [| i rows IH]; intros d; simpl; [reflexivity |].
  destruct (slice i (i + 2) ptr) as [| a [| b [| c rest]]]; try reflexivity.
  rewrite IH. apply length_update_slice.
Qed.

Lemma nondecreasing_rows (ptr : list nat) (i j : nat) :
  nondecreasing ptr -> i <> j -> S i < length ptr -> S j < length ptr ->
  nth (S j) ptr 0 <= nth i ptr 0 \/ nth (S i) ptr 0 <= nth j ptr 0.
Proof.
  intros Hmono Hij Hi Hj.
  destruct (Nat.lt_ge_cases j i) as [Hlt | Hge].
  - left. apply Hmono; lia.
  - right. apply Hmono; lia.
Qed.

Lemma normalize_rows_ok (ptr rows : list nat) (d : list float) :
  nondecreasing ptr ->
  NoDup rows ->
  Forall (fun i => S i < length ptr) rows ->
  exists d',
    normalize_rows ptr rows d = (d', Ok tt) /\
    forall j, S j < length ptr ->
      (In j rows ->
         row_slice ptr j d'
         = map (fun x => Float.div x (Float.sum (row_slice ptr j d)))
             (row_slice ptr j d)) /\
      (~ In j rows -> row_slice ptr j d' = row_slice ptr j d).
Proof.
  intros Hmono Hnodup Hrows. revert d.
  induction rows as [| i rows IH]; intros d.
  - exists d. split; [reflexivity |].
    intros j _. split; [intros [] | reflexivity].
  - inversion Hnodup as [| ? ? Hnotin Hnodup']; subst.
    inversion Hrows as [| ? ? Hi Hrows']; subst.
    cbn [normalize_rows]. rewrite slice_unpack by assumption.
    set (a := nth i ptr 0). set (b := nth (S i) ptr 0).
    set (d1 := update_slice a b
                 (fun x => Float.div x (Float.sum (slice a b d))) d).
    destruct (IH Hnodup' Hrows' d1) as [d' [Hrun Hslices]].
    exists d'. split; [exact Hrun |].
    intros j Hj.
    destruct (Hslices j Hj) as [Hin Hout].
    destruct (Nat.eq_dec j i) as [-> | Hji].
    + split; [intros _ | intros H; exfalso; apply H; now left].
      rewrite (Hout Hnotin). unfold row_slice, d1.
      apply slice_update_slice_same.
    + assert (Hframe : row_slice ptr j d1 = row_slice ptr j d).
      { unfold row_slice, d1. apply slice_update_slice_frame.
        destruct (nondecreasing_rows Hmono Hji Hj Hi); auto. }
      split.
      * intros [Heq | Hjin]; [congruence |].
        rewrite (Hin Hjin), Hframe. reflexivity.
      * intros Hnot. rewrite Hout, Hframe; [reflexivity |].
        intros Hjin. apply Hnot. now right.
Qed.

Lemma make_stochastic_matrix_structure (m : csr_matrix) :
  let m' := fst (make_stochastic_matrix m) in
  shape m' = shape m /\ indices m' = indices m /\ indptr m' = indptr m /\
  length (data m') = length (data m).
Proof.
  unfold make_stochastic_matrix.
  pose proof (normalize_rows_length (indptr m) (seq 0 (fst (shape m)))
                (data m)) as Hlen.
  destruct (normalize_rows (indptr m) (seq 0 (fst (shape m))) (data m))
    as [d' outcome].
  simpl in *. auto.
Qed.

Lemma stored_positions_structure (m m' : csr_matrix) :
  shape m' = shape m -> indices m' = indices m -> indptr m' = indptr m ->
  stored_positions m' = stored_positions m.
Proof.
  intros Hs Hi Hp. unfold stored_positions, row_columns.
  now rewrite Hs, Hi, Hp.
Qed.

Lemma make_stochastic_matrix_ok (m : csr_matrix) :
  well_formed m ->
  exists d',
    make_stochastic_matrix m = (_with_data m d', Ok tt) /\
    length d' = length (data m) /\
    forall i, i < fst (shape m) ->
      row_slice (indptr m) i d'
      = map (fun x => Float.div x (Float.sum (row_values m i)))
          (row_values m i).
Proof.
  intros Hwf.
  destruct (@normalize_rows_ok (indptr m) (seq 0 (fst (shape m))) (data m))
    as [d' [Hrun Hrows]].
  - apply (wf_indptr_mono Hwf).
  - apply seq_NoDup.
  - apply Forall_forall. intros i Hi. apply in_seq in Hi.
    rewrite (wf_indptr_length Hwf). lia.
  - exists d'. split; [| split].
    + unfold make_stochastic_matrix. now rewrite Hrun.
    + pose proof (normalize_rows_length (indptr m)
                    (seq 0 (fst (shape m))) (data m)) as Hlen.
      now rewrite Hrun in Hlen.
    + intros i Hi.
      destruct (Hrows i) as [Hin _].
      * rewrite (wf_indptr_length Hwf). lia.
      * apply Hin. apply in_seq. lia.
Qed.

(** C2: the kernel matrix has the shape, [indices] and [indptr] of the
    distance matrix it is computed from and stores as many values, so
    its stored (row, column) positions are those of the distance matrix:
    no stored entry is dropped or added, whatever the kernel values
    are. *)
Theorem kernel_matrix_same_positions (eps : float) (dm : csr_matrix) :
  let km := DiffusionMaps._compute_kernel_matrix eps dm in
  shape km = shape dm /\
  indices km = indices dm /\
  indptr km = indptr dm /\
  length (data km) = length (data dm) /\
  stored_positions km = stored_positions dm.
Proof.
  intros km. repeat split.
  unfold km. rewrite kernel_matrix_data. apply length_map.
Qed.

(** C10: whatever the matrix, and also when the call raises, after
    [make_stochastic_matrix] the matrix has the shape, [indices] and
    [indptr] it had before and stores as many values: only the stored
    values change, and the stored positions are the same. *)
Theorem make_stochastic_matrix_frame (m : csr_matrix) :
  let m' := fst (make_stochastic_matrix m) in
  shape m' = shape m /\
  indices m' = indices m /\
  indptr m' = indptr m /\
  length (data m') = length (data m) /\
  stored_positions m' = stored_positions m.
Proof.
  intros m'.
  destruct (make_stochastic_matrix_structure m) as [Hs [Hi [Hp Hl]]].
  fold m' in Hs, Hi, Hp, Hl.
  repeat split; auto. now apply stored_positions_structure.
Qed.

(** ** The kernel matrix of a well-formed matrix *)

Lemma kernel_matrix_well_formed (eps : float) (dm : csr_matrix) :
  well_formed dm ->
  well_formed (DiffusionMaps._compute_kernel_matrix eps dm).
Proof.
  intros [H1 H2 H3 H4 H5 H6].
  constructor; simpl; auto;
    unfold DiffusionMaps.kernel_function; rewrite length_map; assumption.
Qed.

Lemma Forall_slice (A : Type) (P : A -> Prop) (a b : nat) (l : list A) :
  Forall P l -> Forall P (slice a b l).
Proof.
  intros Hl. rewrite Forall_forall in *. intros x Hx.
  apply In_nth_error in Hx. destruct Hx as [k Hk].
  rewrite nth_error_slice in Hk.
  destruct (k <? b - a); [| discriminate].
  apply Hl. eapply nth_error_In; eauto.
Qed.

(** ** Rows that sum to zero *)

Lemma div_by_zero_not_finite (x : float) :
  ~ Float.finite (Float.div x (Finite 0)).
Proof.
  destruct x as [r | s | ]; simpl; auto.
  rewrite is_zero_true. destruct (Float.is_zero r); simpl; auto.
Qed.

(** C4, as the code has it: [make_stochastic_matrix] makes no check of the
    row sums.  On every well-formed matrix it returns normally, and a row
    whose stored values sum to exactly 0 keeps its length while each of
    its values, divided by zero, becomes NaN or an infinity. *)
Theorem zero_row_sum_not_detected (m : csr_matrix) :
  well_formed m ->
  exists m',
    make_stochastic_matrix m = (m', Ok tt) /\
    forall i, i < fst (shape m) ->
      Float.sum (row_values m i) = Finite 0 ->
      length (row_values m' i) = length (row_values m i) /\
      Forall (fun x => ~ Float.finite x) (row_values m' i).
Proof.
  intros Hwf.
  destruct (make_stochastic_matrix_ok Hwf) as [d' [Hrun [_ Hrows]]].
  exists (_with_data m d'). split; [exact Hrun |].
  intros i Hi Hsum.
  assert (HM : row_values (_with_data m d') i
               = map (fun x => Float.div x (Float.sum (row_values m i)))
                   (row_values m i)) by exact (Hrows i Hi).
  rewrite HM, Hsum. split; [apply length_map |].
  apply Forall_map. apply Forall_forall. intros x _.
  apply div_by_zero_not_finite.
Qed.

Lemma zero_row_well_formed : well_formed zero_row.
Proof.
  constructor; simpl; auto.
  - intros i j Hij Hj. simpl in Hj.
    destruct j as [| [| j]]; destruct i as [| [| i]]; simpl; lia.
Qed.

Lemma zero_row_sum : Float.sum (row_values zero_row 0) = Finite 0.
Proof. unfold Float.sum. simpl. f_equal. lra. Qed.

(** C4 fails on the code: the 1 x 1 matrix that stores the value 0 has a
    row of sum 0, and the call returns normally and leaves NaN in the
    matrix. *)
Lemma zero_row_sum_unreported :
  Float.sum (row_values zero_row 0) = Finite 0 /\
  make_stochastic_matrix zero_row = (_with_data zero_row [NaN], Ok tt) /\
  snd (make_stochastic_matrix zero_row) <> Err NumericalFault.
Proof.
  assert (Hrun : make_stochastic_matrix zero_row
                 = (_with_data zero_row [NaN], Ok tt)).
  { unfold make_stochastic_matrix. simpl.
    unfold update_slice, slice, Float.sum. simpl.
    replace (0 + 0)%R with 0%R by lra.
    rewrite is_zero_true. reflexivity. }
  split; [exact zero_row_sum |]. split; [exact Hrun |].
  rewrite Hrun. discriminate.
Qed.

Lemma zero_row_sum_not_detected_witness :
  well_formed zero_row /\
  exists m', make_stochastic_matrix zero_row = (m', Ok tt) /\
    Forall (fun x => ~ Float.finite x) (row_values m' 0).
Proof.
  split; [exact zero_row_well_formed |].
  destruct (zero_row_sum_not_detected zero_row_well_formed)
    as [m' [Hrun Hrows]].
  exists m'. split; [exact Hrun |].
  apply (Hrows 0); [simpl; lia | exact zero_row_sum].
Defined.

(** ** Symmetry of the kernel matrix *)

Lemma slice_map (A B : Type) (f : A -> B) (a b : nat) (l : list A) :
  slice a b (map f l) = map f (slice a b l).
Proof. unfold slice. now rewrite skipn_map, firstn_map. Qed.

Lemma find_column_map (f : float -> float) (j : nat) (cols : list nat)
  (vals : list float) :
  find_column j cols (map f vals) = option_map f (find_column j cols vals).
Proof.
  revert vals. induction cols as [| c cols IH]; intros vals.
  - reflexivity.
  - destruct vals as [| v vals]; simpl; [reflexivity |].
    destruct (c =? j); [reflexivity | apply IH].
Qed.

Lemma kernel_matrix_stored_entry (eps : float) (dm : csr_matrix) (i j : nat) :
  stored_entry (DiffusionMaps._compute_kernel_matrix eps dm) i j
  = option_map (DiffusionMaps.kernel eps) (stored_entry dm i j).
Proof.
  unfold stored_entry, row_values, row_columns, row_slice. simpl.
  unfold DiffusionMaps.kernel_function.
  now rewrite slice_map, find_column_map.
Qed.







(** ** The constructor *)

Section InitFacts.

Variables point_t options_t : Type.
Variable search : list point_t -> options_t -> float -> result csr_matrix.
Variable solver : bool -> csr_matrix -> nat -> result (list R * list (list R)).

(** [__init__] raises nothing of its own: when the neighbour search, the
    normalisation and the eigensolver return, it returns the object made
    of their results. *)
Lemma init_proceeds (points : list point_t) (eps : float)
  (cut_off : option float) (k : nat) (normalize : bool) (opts : options_t)
  (cuda : bool) (dm km : csr_matrix) (pairs : list R * list (list R)) :
  search points opts (DiffusionMaps.init_cut_off eps cut_off) = Ok dm ->
  DiffusionMaps.init_kernel_matrix eps normalize dm = Ok km ->
  solver cuda km k = Ok pairs ->
  DiffusionMaps.__init__ search solver points eps cut_off k normalize opts
    cuda
  = Ok {| DiffusionMaps.epsilon := eps;
          DiffusionMaps._cut_off := DiffusionMaps.init_cut_off eps cut_off;
          DiffusionMaps.kernel_matrix := km;
          DiffusionMaps.eigenvalues := fst pairs;
          DiffusionMaps.eigenvectors := snd pairs |}.
Proof.
  intros Hsearch Hkernel Hsolver. unfold DiffusionMaps.__init__.
  rewrite Hsearch. simpl. rewrite Hkernel. simpl. rewrite Hsolver.
  reflexivity.
Qed.

(** The failure of the eigensolver is the failure of [__init__]. *)
Lemma init_solver_failure (points : list point_t) (eps : float)
  (cut_off : option float) (k : nat) (normalize : bool) (opts : options_t)
  (cuda : bool) (dm km : csr_matrix) (e : error) :
  search points opts (DiffusionMaps.init_cut_off eps cut_off) = Ok dm ->
  DiffusionMaps.init_kernel_matrix eps normalize dm = Ok km ->
  solver cuda km k = Err e ->
  DiffusionMaps.__init__ search solver points eps cut_off k normalize opts
    cuda
  = Err e.
Proof.
  intros Hsearch Hkernel Hsolver. unfold DiffusionMaps.__init__.
  rewrite Hsearch. simpl. rewrite Hkernel. simpl. rewrite Hsolver.
  reflexivity.
Qed.

Lemma init_kernel_matrix_structure (eps : float) (normalize : bool)
  (dm km : csr_matrix) :
  DiffusionMaps.init_kernel_matrix eps normalize dm = Ok km ->
  shape km = shape dm /\ indices km = indices dm /\ indptr km = indptr dm.
Proof.
  unfold DiffusionMaps.init_kernel_matrix. destruct normalize.
  - pose proof (make_stochastic_matrix_structure
                  (DiffusionMaps._compute_kernel_matrix eps dm)) as H.
    destruct (make_stochastic_matrix
                (DiffusionMaps._compute_kernel_matrix eps dm))
      as [km' [[] | e]]; simpl in *; [| discriminate].
    intros [= <-]. tauto.
  - intros [= <-]. auto.
Qed.

(** C5, as the code has it: the cut-off the engine stores is exactly
    [2 epsilon] when none is supplied, which is at least [epsilon] when
    [epsilon >= 0], and is the supplied value otherwise, which is not
    compared with [epsilon]: whenever the neighbour search, the
    normalisation and the eigensolver return, the construction returns
    the object holding that cut-off. *)
Theorem cut_off_stored_as_given (points : list point_t) (eps : R)
  (cut_off : option float) (k : nat) (normalize : bool) (opts : options_t)
  (cuda : bool) (dm km : csr_matrix) (pairs : list R * list (list R)) :
  let cut := match cut_off with
             | None => Finite (2 * eps)
             | Some c => c
             end in
  search points opts cut = Ok dm ->
  DiffusionMaps.init_kernel_matrix (Finite eps) normalize dm = Ok km ->
  solver cuda km k = Ok pairs ->
  (cut_off = None -> (0 <= eps)%R -> (eps <= Float.val cut)%R) /\
  exists obj,
    DiffusionMaps.__init__ search solver points (Finite eps) cut_off k
      normalize opts cuda = Ok obj /\
    DiffusionMaps._cut_off obj = cut.
Proof.
  intros cut Hsearch Hkernel Hsolver.
  assert (Hcut : DiffusionMaps.init_cut_off (Finite eps) cut_off = cut)
    by (destruct cut_off; reflexivity).
  split.
  - intros -> Heps. simpl. lra.
  - eexists. split.
    + eapply init_proceeds; eauto.
    + simpl. exact Hcut.
Qed.

(** C6: when the neighbour search returns the N x N distance matrix of
    the N points and the normalisation returns, a solver that keeps the
    contract makes the construction fail with a configuration error
    whenever more than N eigenpairs are asked for. *)
Theorem too_many_eigenpairs_rejected (points : list point_t) (eps : float)
  (cut_off : option float) (k : nat) (normalize : bool) (opts : options_t)
  (cuda : bool) (dm km : csr_matrix) :
  search points opts (DiffusionMaps.init_cut_off eps cut_off) = Ok dm ->
  shape dm = (length points, length points) ->
  DiffusionMaps.init_kernel_matrix eps normalize dm = Ok km ->
  eigensolver_contract km k (solver cuda km k) ->
  length points < k ->
  DiffusionMaps.__init__ search solver points eps cut_off k normalize opts
    cuda
  = Err ConfigurationError.
Proof.
  intros Hsearch Hshape Hkernel Hcontract Hk.
  destruct (init_kernel_matrix_structure _ _ _ Hkernel) as [Hs _].
  unfold eigensolver_contract in Hcontract.
  rewrite Hs, Hshape in Hcontract. simpl in Hcontract.
  destruct (Nat.ltb_spec (length points) k) as [_ | Hge]; [| lia].
  eapply init_solver_failure; eauto.
Qed.

End InitFacts.

(** C5 fails on the code: with [epsilon = 1] and the cut-off 1/2 the
    construction returns, and the object holds the cut-off 1/2, below
    [epsilon]. *)
Lemma cut_off_below_epsilon_accepted :
  exists obj,
    DiffusionMaps.__init__ single_point_search single_point_solver [tt]
      (Finite 1) (Some (Finite (1 / 2))) 1 false tt false = Ok obj /\
    DiffusionMaps._cut_off obj = Finite (1 / 2) /\
    (Float.val (DiffusionMaps._cut_off obj)
     < Float.val (DiffusionMaps.epsilon obj))%R.
Proof.
  eexists. split; [| split].
  - eapply init_proceeds; reflexivity.
  - reflexivity.
  - simpl. lra.
Qed.

Lemma cut_off_stored_as_given_witness :
  single_point_search [tt] tt (Finite (1 / 2)) = Ok zero_row /\
  exists obj,
    DiffusionMaps.__init__ single_point_search single_point_solver [tt]
      (Finite 1) (Some (Finite (1 / 2))) 1 false tt false = Ok obj /\
    DiffusionMaps._cut_off obj = Finite (1 / 2).
Proof.
  split; [reflexivity |].
  apply (@cut_off_stored_as_given unit unit single_point_search
           single_point_solver [tt] 1 (Some (Finite (1 / 2))) 1 false tt
           false zero_row
           (DiffusionMaps._compute_kernel_matrix (Finite 1) zero_row)
           ([1%R], [[1%R]])); reflexivity.
Defined.

Lemma too_many_eigenpairs_rejected_witness :
  length [tt] < 10 /\
  DiffusionMaps.__init__ single_point_search single_point_solver [tt]
    (Finite 1) None 10 false tt false = Err ConfigurationError.
Proof.
  split; [simpl; lia |].
  apply (@too_many_eigenpairs_rejected unit unit single_point_search
           single_point_solver [tt] (Finite 1) None 10 false tt false
           zero_row
           (DiffusionMaps._compute_kernel_matrix (Finite 1) zero_row));
    try reflexivity.
  simpl. lia.
Defined.

(** ** Subsampling *)

Lemma sort_increasing (l : list nat) :
  NoDup l -> StronglySorted lt (NatSort.sort l).
Proof.
  intros Hnodup.
  assert (Hnd : NoDup (NatSort.sort l))
    by (eapply Permutation_NoDup; [apply NatSort.Permuted_sort | exact Hnodup]).
  assert (Hsorted : StronglySorted (fun x y => is_true (x <=? y))
                      (NatSort.sort l)).
  { apply Sorted_StronglySorted.
    - intros x y z Hxy Hyz. apply Nat.leb_le in Hxy, Hyz.
      apply Nat.leb_le. lia.
    - apply NatSort.Sorted_sort. }
  induction Hsorted as [| x rest Hrest IH Hx]; constructor.
  - apply IH. now inversion Hnd.
  - inversion Hnd as [| ? ? Hnotin _]; subst.
    rewrite Forall_forall in *. intros y Hy.
    assert (x <= y) by (apply Nat.leb_le; now apply Hx).
    assert (x <> y) by (intros ->; contradiction).
    lia.
Qed.

Lemma take_rows_in_range (row : Type) (data : list row) (indices : list nat) :
  Forall (fun i => i < length data) indices ->
  exists out,
    take_rows data indices = Ok out /\
    Forall2 (fun i x => nth_error data i = Some x) indices out.
Proof.
  intros Hrange. induction Hrange as [| i indices Hi _ IH].
  - exists []. split; [reflexivity | constructor].
  - destruct IH as [out [Hrun Hout]].
    destruct (nth_error data i) as [x |] eqn:Hx.
    + exists (x :: out). simpl. rewrite Hx, Hrun. split; [reflexivity |].
      now constructor.
    + apply nth_error_None in Hx. lia.
Qed.

(** C9: when the generator draws [n] different indices below
    [len(data)], [downsample(data, n)] with [n <= len(data)] returns
    exactly [n] rows, which are the rows of [data] at [n] strictly
    increasing indices: each is a row of [data], no row is taken twice
    and the rows come in the order they have in [data].  With
    [n > len(data)] the assertion fails and nothing is returned. *)
Theorem downsample_ordered_sample (row : Type)
  (random_choice : nat -> nat -> list nat) (data : list row) (n : nat) :
  (n <= length data ->
   drawn_without_replacement (length data) n
     (random_choice (length data) n)) ->
  (n <= length data ->
   exists indices out,
     downsample random_choice data n = Ok out /\
     length out = n /\
     length indices = n /\
     StronglySorted lt indices /\
     Forall (fun i => i < length data) indices /\
     Forall2 (fun i x => nth_error data i = Some x) indices out) /\
  (length data < n ->
   downsample random_choice data n = Err AssertionError).
Proof.
  intros Hdraw. split.
  - intros Hn. destruct (Hdraw Hn) as [Hlen [Hnodup Hrange]].
    set (drawn := random_choice (length data) n) in *.
    pose proof (NatSort.Permuted_sort drawn) as Hperm.
    assert (Hrange' : Forall (fun i => i < length data)
                        (NatSort.sort drawn)).
    { rewrite Forall_forall in *. intros i Hi. apply Hrange.
      eapply Permutation_in; [symmetry; exact Hperm | exact Hi]. }
    destruct (take_rows_in_range data Hrange') as [out [Hrun Hout]].
    exists (NatSort.sort drawn), out.
    assert (Hslen : length (NatSort.sort drawn) = n)
      by (rewrite <- (Permutation_length Hperm); exact Hlen).
    repeat split; auto.
    + unfold downsample.
      destruct (Nat.leb_spec n (length data)) as [_ | H]; [| lia].
      exact Hrun.
    + rewrite <- (Forall2_length Hout). exact Hslen.
    + now apply sort_increasing.
  - intros Hn. unfold downsample.
    destruct (Nat.leb_spec n (length data)) as [H | _]; [lia | reflexivity].
Qed.

(** ** Eigenvalues of a row-stochastic matrix *)

Lemma row_slice_lengths (A B : Type) (ptr : list nat) (i : nat)
  (l : list A) (l' : list B) :
  length l = length l' ->
  length (row_slice ptr i l) = length (row_slice ptr i l').
Proof.
  intros Hlen. unfold row_slice. rewrite !length_slice. now rewrite Hlen.
Qed.

Lemma weighted_sum_bound (v : list R) (B : R) (cols : list nat)
  (vals : list float) :
  (forall j, Rabs (nth j v 0) <= B)%R ->
  Forall nonnegative vals ->
  length cols = length vals ->
  (Rabs (Rsum (map (fun cx => Float.val (snd cx) * nth (fst cx) v 0)
                 (combine cols vals)))
   <= Rsum (map Float.val vals) * B)%R.
Proof.
  intros HB Hpos. revert cols.
  induction Hpos as [| x vals Hx _ IH]; intros cols Hlen.
  - destruct cols; simpl; rewrite Rabs_R0; lra.
  - destruct cols as [| c cols]; [discriminate |]. simpl in *.
    destruct x as [w | s | ]; simpl in Hx; try contradiction. simpl.
    eapply Rle_trans; [apply Rabs_triang |].
    rewrite Rabs_mult, (Rabs_right w) by lra.
    specialize (IH cols ltac:(lia)). specialize (HB c).
    nra.
Qed.

Lemma max_abs_entry (v : list R) :
  v <> [] ->
  exists i, i < length v /\
    forall j, (Rabs (nth j v 0) <= Rabs (nth i v 0))%R.
Proof.
  induction v as [| x v IH]; [congruence |]. intros _.
  destruct v as [| y v].
  - exists 0. split; [simpl; lia |].
    intros [| [| j]]; simpl; try lra; rewrite Rabs_R0; apply Rabs_pos.
  - destruct IH as [i [Hi Hmax]]; [discriminate |].
    destruct (Rle_dec (Rabs x) (Rabs (nth i (y :: v) 0%R))) as [Hle | Hgt].
    + exists (S i). split; [simpl in *; lia |].
      intros [| j]; [exact Hle | apply Hmax].
    + exists 0. split; [simpl; lia |].
      intros [| j]; [simpl; lra |].
      change (nth (S j) (x :: y :: v) 0%R) with (nth j (y :: v) 0%R).
      specialize (Hmax j). simpl nth at 2. lra.
Qed.

Lemma matvec_entry (m : csr_matrix) (v : list R) (lam : R) (i : nat) :
  i < fst (shape m) ->
  length v = fst (shape m) ->
  matvec m v = map (Rmult lam) v ->
  row_dot m i v = (lam * nth i v 0)%R.
Proof.
  intros Hi Hlen Heq.
  assert (H : nth_error (matvec m v) i = nth_error (map (Rmult lam) v) i)
    by now rewrite Heq.
  unfold matvec in H. rewrite !nth_error_map, nth_error_seq in H.
  destruct (Nat.ltb_spec i (fst (shape m))) as [_ | Hge]; [| lia].
  rewrite (nth_error_nth' v 0%R) in H by lia.
  simpl in H. now injection H.
Qed.

Lemma stochastic_eigenvalue_le_one (m : csr_matrix) (lam : R) :
  row_stochastic m -> eigenvalue m lam -> (lam <= 1)%R.
Proof.
  intros Hst [v [Hlen [[i0 Hnz] Heq]]].
  assert (Hne : v <> []) by (intros ->; destruct i0; simpl in Hnz; lra).
  destruct (max_abs_entry Hne) as [i [Hi Hmax]].
  assert (Hpos : (0 < Rabs (nth i v 0))%R).
  { eapply Rlt_le_trans; [apply Rabs_pos_lt; exact Hnz | apply Hmax]. }
  rewrite Hlen in Hi.
  destruct (Hst i Hi) as [Hcl [_ [Hvp Hsum]]].
  pose proof (weighted_sum_bound v (row_columns m i) Hmax Hvp Hcl) as Hb.
  fold (row_dot m i v) in Hb. fold (row_sum m i) in Hb.
  rewrite (@matvec_entry m v lam i Hi Hlen Heq), Hsum, Rabs_mult in Hb.
  pose proof (Rle_abs lam). pose proof (Rabs_pos lam). nra.
Qed.

Lemma ones_weighted_sum (N : nat) (cols : list nat) (vals : list float) :
  length cols = length vals ->
  Forall (fun j => j < N) cols ->
  Rsum (map (fun cx => Float.val (snd cx) * nth (fst cx) (repeat 1 N) 0)%R
          (combine cols vals))
  = Rsum (map Float.val vals).
Proof.
  revert vals. induction cols as [| c cols IH]; intros vals Hcl Hrange.
  - destruct vals; [reflexivity | discriminate].
  - destruct vals as [| x vals]; [discriminate |]. simpl in *.
    inversion Hrange; subst.
    rewrite (nth_repeat_lt 1%R 0%R) by assumption.
    rewrite IH by (auto; lia). lra.
Qed.

Lemma ones_row_dot (m : csr_matrix) (i : nat) :
  row_stochastic m -> i < fst (shape m) ->
  row_dot m i (repeat 1%R (fst (shape m))) = 1%R.
Proof.
  intros Hst Hi. destruct (Hst i Hi) as [Hcl [Hrange [_ Hsum]]].
  unfold row_dot. rewrite ones_weighted_sum by assumption. exact Hsum.
Qed.

Lemma stochastic_eigenvalue_one (m : csr_matrix) :
  row_stochastic m -> 0 < fst (shape m) -> eigenvalue m 1.
Proof.
  intros Hst HN. exists (repeat 1%R (fst (shape m))). repeat split.
  - apply repeat_length.
  - exists 0. rewrite (nth_repeat_lt 1%R 0%R) by assumption. lra.
  - unfold matvec. rewrite map_repeat, Rmult_1_l.
    transitivity (map (fun _ : nat => 1%R) (seq 0 (fst (shape m)))).
    + apply map_ext_in. intros i Hin. apply in_seq in Hin.
      apply ones_row_dot; [assumption | lia].
    + now rewrite map_const, length_seq.
Qed.

Lemma descending_head (x : R) (l : list R) (y : R) :
  descending (x :: l) -> In y (x :: l) -> (y <= x)%R.
Proof.
  intros Hdesc [-> | Hy]; [lra |].
  inversion Hdesc as [| ? ? _ Hall]; subst.
  rewrite Forall_forall in Hall. specialize (Hall y Hy). lra.
Qed.

(** ** Four collinear points and a draw of three rows *)

Lemma collinear_distances_well_formed : well_formed collinear_distances.
Proof.
  constructor; simpl; auto.
  - intros i j Hij Hj. simpl in Hj.
    do 5 (destruct j as [| j]; [do 5 (destruct i as [| i]; simpl; try lia) |]).
    lia.
  - repeat constructor.
Qed.

Lemma collinear_distances_are_distances :
  Forall is_distance (data collinear_distances).
Proof. repeat constructor; simpl; lra. Qed.

Lemma collinear_distances_finite : finite_data collinear_distances.
Proof. repeat constructor. Qed.

Lemma example_draw_without_replacement :
  drawn_without_replacement 5 3 (example_draw 5 3).
Proof.
  unfold drawn_without_replacement, example_draw.
  split; [reflexivity |]. split.
  - repeat constructor; simpl; lia.
  - repeat constructor.
Qed.

Example downsample_example :
  downsample example_draw [10; 20; 30; 40; 50] 3 = Ok [10; 30; 40].
Proof. reflexivity. Qed.

Example downsample_too_many :
  downsample example_draw [10; 20] 3 = Err AssertionError.
Proof. reflexivity. Qed.

Lemma downsample_ordered_sample_witness :
  drawn_without_replacement 5 3 (example_draw 5 3) /\
  exists indices out,
    downsample example_draw [10; 20; 30; 40; 50] 3 = Ok out /\
    length out = 3 /\
    StronglySorted lt indices /\
    Forall2 (fun i x => nth_error [10; 20; 30; 40; 50] i = Some x)
      indices out.
Proof.
  split; [exact example_draw_without_replacement |].
  destruct (@downsample_ordered_sample nat example_draw
              [10; 20; 30; 40; 50] 3
              (fun _ => example_draw_without_replacement))
    as [Hsample _].
  destruct Hsample as [indices [out [Hrun [Hlen [_ [Hsorted [_ Hrows]]]]]]].
  - simpl. lia.
  - exists indices, out. repeat split; assumption.
Defined.

(** * Further properties of the module's functions *)

(** ** When the normalisation raises *)

Lemma slice_unpack_short (l : list nat) (i : nat) :
  length l <= S i ->
  match slice i (i + 2) l with
  | [_; _] => False
  | _ => True
  end.
Proof.
  intros Hshort.
  pose proof (length_slice i (i + 2) l) as Hlen.
  destruct (slice i (i + 2) l) as [| a [| b [| c rest]]]; simpl in *; auto.
  lia.
Qed.

Lemma normalize_rows_outcome (ptr rows : list nat) (d : list float) :
  snd (normalize_rows ptr rows d)
  = if forallb (fun i => S i <? length ptr) rows
    then Ok tt else Err ValueError.
Proof.
  revert d. induction rows as [| i rows IH]; intros d; [reflexivity |].
  cbn [normalize_rows forallb].
  destruct (Nat.ltb_spec (S i) (length ptr)) as [Hi | Hi].
  - rewrite slice_unpack by assumption. simpl. apply IH.
  - pose proof (@slice_unpack_short ptr i Hi) as Hshort.
    destruct (slice i (i + 2) ptr) as [| a [| b [| c rest]]];
      try reflexivity; contradiction.
Qed.

Lemma forallb_seq_below (n L : nat) :
  forallb (fun i => S i <? L) (seq 0 n) = (n =? 0) || (n <? L).
Proof.
  destruct (forallb (fun i => S i <? L) (seq 0 n)) eqn:Hall.
  - rewrite forallb_forall in Hall. symmetry.
    destruct n as [| n]; [reflexivity |]. simpl.
    apply Nat.ltb_lt.
    assert (H : (S n <? L) = true) by (apply Hall, in_seq; lia).
    now apply Nat.ltb_lt in H.
  - symmetry. apply Bool.orb_false_iff.
    destruct n as [| n]; [discriminate |]. split; [reflexivity |].
    apply Nat.ltb_ge.
    destruct (Nat.le_gt_cases L (S n)) as [H | H]; [exact H |].
    exfalso. rewrite <- Bool.not_true_iff_false in Hall. apply Hall.
    apply forallb_forall. intros i Hi. apply in_seq in Hi.
    apply Nat.ltb_lt. lia.
Qed.

(** X1: [make_stochastic_matrix] raises only [ValueError], and exactly
    when the matrix has a row and [indptr] has no more elements than
    there are rows; in every other case, whatever the values of [indptr]
    and the stored values, it returns normally. *)
Theorem make_stochastic_matrix_outcome (m : csr_matrix) :
  snd (make_stochastic_matrix m)
  = if (fst (shape m) =? 0) || (fst (shape m) <? length (indptr m))
    then Ok tt else Err ValueError.
Proof.
  unfold make_stochastic_matrix.
  pose proof (normalize_rows_outcome (indptr m) (seq 0 (fst (shape m)))
                (data m)) as Hout.
  destruct (normalize_rows (indptr m) (seq 0 (fst (shape m))) (data m))
    as [d' outcome].
  simpl in *. rewrite Hout, forallb_seq_below. reflexivity.
Qed.

(** ** Entries of the normalised matrix *)

Lemma row_of_index (ptr : list nat) (n k : nat) :
  nth 0 ptr 0 = 0 -> k < nth n ptr 0 ->
  exists i, i < n /\ nth i ptr 0 <= k < nth (S i) ptr 0.
Proof.
  intros H0. induction n as [| n IH]; intros Hk; [lia |].
  destruct (Nat.lt_ge_cases k (nth n ptr 0)) as [Hlt | Hge].
  - destruct (IH Hlt) as [i [Hi Hrange]]. exists i. split; [lia | exact Hrange].
  - exists n. split; [lia | lia].
Qed.

Lemma stored_index_row (m : csr_matrix) (k : nat) :
  well_formed m -> k < length (data m) ->
  exists i, i < fst (shape m) /\
    nth i (indptr m) 0 <= k < nth (S i) (indptr m) 0.
Proof.
  intros Hwf Hk. apply row_of_index.
  - exact (wf_indptr_first Hwf).
  - now rewrite (wf_indptr_last Hwf).
Qed.

Lemma nth_error_row_slice (A : Type) (ptr : list nat) (i k : nat)
  (l : list A) :
  nth i ptr 0 <= k < nth (S i) ptr 0 ->
  nth_error (row_slice ptr i l) (k - nth i ptr 0) = nth_error l k.
Proof.
  intros Hk. unfold row_slice. rewrite nth_error_slice.
  destruct (Nat.ltb_spec (k - nth i ptr 0) (nth (S i) ptr 0 - nth i ptr 0))
    as [_ | H]; [| lia].
  f_equal. lia.
Qed.

Lemma make_stochastic_matrix_entry (m : csr_matrix) :
  well_formed m ->
  exists d',
    make_stochastic_matrix m = (_with_data m d', Ok tt) /\
    length d' = length (data m) /\
    forall i k, i < fst (shape m) ->
      nth i (indptr m) 0 <= k < nth (S i) (indptr m) 0 ->
      nth_error d' k
      = option_map (fun x => Float.div x (Float.sum (row_values m i)))
          (nth_error (data m) k).
Proof.
  intros Hwf.
  destruct (make_stochastic_matrix_ok Hwf) as [d' [Hrun [Hlen Hrows]]].
  exists d'. split; [exact Hrun |]. split; [exact Hlen |].
  intros i k Hi Hk.
  rewrite <- (@nth_error_row_slice _ (indptr m) i k d' Hk), (Hrows i Hi).
  rewrite nth_error_map. unfold row_values.
  now rewrite (@nth_error_row_slice _ (indptr m) i k (data m) Hk).
Qed.

(** X2: on a well-formed matrix [make_stochastic_matrix] returns
    normally, keeps the number of stored values, and replaces every
    stored value by its quotient by the sum of the stored values of its
    row, the sums being those of the matrix before the call. *)
Theorem make_stochastic_matrix_divides_by_row_sum (m : csr_matrix) :
  well_formed m ->
  exists m',
    make_stochastic_matrix m = (m', Ok tt) /\
    length (data m') = length (data m) /\
    (forall i, i < fst (shape m) ->
       row_values m' i
       = map (fun x => Float.div x (Float.sum (row_values m i)))
           (row_values m i)) /\
    (forall k x, nth_error (data m) k = Some x ->
       exists i, i < fst (shape m) /\
         nth i (indptr m) 0 <= k < nth (S i) (indptr m) 0 /\
         nth_error (data m') k
         = Some (Float.div x (Float.sum (row_values m i)))).
Proof.
  intros Hwf.
  destruct (make_stochastic_matrix_ok Hwf) as [d' [Hrun [Hlen Hrows]]].
  destruct (make_stochastic_matrix_entry Hwf) as [d'' [Hrun' [_ Hentry]]].
  rewrite Hrun in Hrun'. injection Hrun' as <-.
  exists (_with_data m d'). repeat split; auto.
  intros k x Hk.
  assert (Hlt : k < length (data m))
    by (apply nth_error_Some; rewrite Hk; discriminate).
  destruct (stored_index_row Hwf Hlt) as [i [Hi Hrange]].
  exists i. repeat split; try lia.
  simpl. rewrite (Hentry i k Hi Hrange), Hk. reflexivity.
Qed.

(** ** Rows of non-negative values *)

Lemma nonnegative_finite (l : list float) :
  Forall nonnegative l -> Forall Float.finite l.
Proof. apply Forall_impl. intros [r | s | ]; simpl; tauto. Qed.

Lemma nonnegative_le_sum (l : list float) (x : float) :
  Forall nonnegative l -> In x l ->
  (0 <= Float.val x <= Rsum (map Float.val l))%R.
Proof.
  intros Hl. induction Hl as [| y l Hy Hl IH]; intros Hx; [contradiction |].
  assert (Hsum : (0 <= Rsum (map Float.val l))%R).
  { clear IH Hx. induction Hl as [| z l Hz _ IHl]; simpl; [lra |].
    destruct z as [r | s | ]; simpl in *; try contradiction. lra. }
  destruct y as [r | s | ]; simpl in Hy; try contradiction.
  destruct Hx as [<- | Hx]; simpl.
  - lra.
  - specialize (IH Hx). lra.
Qed.

Lemma normalized_probabilities (l : list float) :
  Forall nonnegative l ->
  Rsum (map Float.val l) <> 0%R ->
  let l' := map (fun x => Float.div x (Float.sum l)) l in
  Forall probability l' /\ Rsum (map Float.val l') = 1%R.
Proof.
  intros Hnn Hsum l'.
  pose proof (@nonnegative_finite l Hnn) as Hfin.
  unfold l'. rewrite sum_finite by assumption. split.
  - apply Forall_map. apply Forall_forall. intros x Hx.
    pose proof (@nonnegative_le_sum l x Hnn Hx) as Hle.
    rewrite Forall_forall in Hfin. specialize (Hfin x Hx).
    destruct x as [r | s | ]; simpl in Hfin; try contradiction.
    rewrite div_finite by assumption. simpl in *.
    assert (Hpos : (0 < Rsum (map Float.val l))%R) by lra.
    split.
    + apply Rmult_le_pos; [lra |].
      left. now apply Rinv_0_lt_compat.
    + apply (Rmult_le_reg_r (Rsum (map Float.val l))); [exact Hpos |].
      unfold Rdiv. rewrite Rmult_assoc, Rinv_l by assumption. lra.
  - rewrite normalized_sum by assumption. field. exact Hsum.
Qed.

(** X3: on a well-formed matrix of finite, non-negative values, after
    [make_stochastic_matrix] every row whose values had a nonzero sum
    holds as many values as before, each of them finite and between 0
    and 1. *)
Theorem make_stochastic_matrix_probability_rows (m : csr_matrix) :
  well_formed m ->
  Forall nonnegative (data m) ->
  exists m',
    make_stochastic_matrix m = (m', Ok tt) /\
    forall i, i < fst (shape m) ->
      row_sum m i <> 0%R ->
      length (row_values m' i) = length (row_values m i) /\
      Forall probability (row_values m' i).
Proof.
  intros Hwf Hnn.
  destruct (make_stochastic_matrix_ok Hwf) as [d' [Hrun [_ Hrows]]].
  exists (_with_data m d'). split; [exact Hrun |].
  intros i Hi Hsum.
  assert (HM : row_values (_with_data m d') i
               = map (fun x => Float.div x (Float.sum (row_values m i)))
                   (row_values m i)) by exact (Hrows i Hi).
  rewrite HM. split; [apply length_map |].
  apply normalized_probabilities; [| exact Hsum].
  apply Forall_slice. exact Hnn.
Qed.

(** ** NaN in a row *)

Lemma add_NaN_r (x : float) : Float.add x NaN = NaN.
Proof. now destruct x. Qed.

Lemma div_NaN_r (x : float) : Float.div x NaN = NaN.
Proof. now destruct x. Qed.

Lemma fold_add_NaN (l : list float) : fold_left Float.add l NaN = NaN.
Proof. induction l as [| x l IH]; simpl; [reflexivity | exact IH]. Qed.

Lemma sum_NaN (l : list float) (acc : float) :
  In NaN l -> fold_left Float.add l acc = NaN.
Proof.
  revert acc. induction l as [| x l IH]; intros acc Hin; [contradiction |].
  simpl. destruct Hin as [-> | Hin].
  - rewrite add_NaN_r. apply fold_add_NaN.
  - now apply IH.
Qed.

Lemma kernel_NaN (eps : float) : DiffusionMaps.kernel eps NaN = NaN.
Proof. reflexivity. Qed.

(** X6: a NaN among the stored distances of a row is not reported: with
    [normalize_kernel=True] and a well-formed distance matrix, the kernel
    matrix is built normally and every stored value of that row of it is
    NaN, whatever the bandwidth. *)
Theorem nan_distance_poisons_row (eps : float) (dm : csr_matrix) (i : nat) :
  well_formed dm ->
  i < fst (shape dm) ->
  In NaN (row_values dm i) ->
  exists M,
    DiffusionMaps.init_kernel_matrix eps true dm = Ok M /\
    length (row_values M i) = length (row_values dm i) /\
    Forall (eq NaN) (row_values M i).
Proof.
  intros Hwf Hi Hnan.
  set (km := DiffusionMaps._compute_kernel_matrix eps dm).
  assert (Hkwf : well_formed km) by now apply kernel_matrix_well_formed.
  destruct (make_stochastic_matrix_ok Hkwf) as [d' [Hrun [_ Hrows]]].
  exists (_with_data km d'). split; [| split].
  - unfold DiffusionMaps.init_kernel_matrix. fold km. now rewrite Hrun.
  - change (row_values (_with_data km d') i)
      with (row_slice (indptr km) i d').
    rewrite (Hrows i Hi), length_map.
    symmetry. apply row_slice_lengths. unfold km.
    rewrite kernel_matrix_data. symmetry. apply length_map.
  - change (row_values (_with_data km d') i)
      with (row_slice (indptr km) i d').
    rewrite (Hrows i Hi).
    assert (Hrow : row_values km i
                   = map (DiffusionMaps.kernel eps) (row_values dm i)).
    { unfold row_values, row_slice, km. simpl. apply slice_map. }
    assert (Hin : In NaN (row_values km i)).
    { rewrite Hrow. rewrite <- (kernel_NaN eps). now apply in_map. }
    unfold Float.sum. rewrite (@sum_NaN _ (Finite 0) Hin).
    apply Forall_map. apply Forall_forall. intros x _.
    symmetry. apply div_NaN_r.
Qed.

(** ** More on subsampling *)

Lemma increasing_is_range (n s : nat) (l : list nat) :
  StronglySorted lt l ->
  Forall (fun x => s <= x < s + n) l ->
  length l = n ->
  l = seq s n.
Proof.
  revert s l. induction n as [| n IH]; intros s l Hsorted Hrange Hlen.
  - now destruct l.
  - destruct l as [| x l]; [discriminate |]. simpl in Hlen.
    inversion Hsorted as [| ? ? Hsorted' Hall]; subst.
    inversion Hrange as [| ? ? Hx Hrange']; subst.
    assert (Hl : l = seq (S s) n).
    { apply IH; [assumption | | lia].
      rewrite Forall_forall in *. intros y Hy.
      specialize (Hall y Hy). specialize (Hrange' y Hy). lia. }
    assert (Hxs : x = s).
    { destruct n as [| n]; [lia |].
      rewrite Hl in Hall. simpl in Hall. inversion Hall; subst. lia. }
    subst x. simpl. now f_equal.
Qed.

Lemma take_rows_all (row : Type) (pre data : list row) :
  take_rows (pre ++ data) (seq (length pre) (length data)) = Ok data.
Proof.
  revert pre. induction data as [| x data IH]; intros pre; [reflexivity |].
  simpl. rewrite nth_error_app2, Nat.sub_diag by lia. simpl.
  replace (pre ++ x :: data) with ((pre ++ [x]) ++ data)
    by now rewrite <- app_assoc.
  replace (S (length pre)) with (length (pre ++ [x]))
    by (rewrite length_app; simpl; lia).
  now rewrite IH.
Qed.

(** X9: asked for as many rows as the data has, [downsample] returns the
    data itself, rows in their order, whichever way the generator drew
    the indices. *)
Theorem downsample_all (row : Type) (random_choice : nat -> nat -> list nat)
  (data : list row) :
  drawn_without_replacement (length data) (length data)
    (random_choice (length data) (length data)) ->
  downsample random_choice data (length data) = Ok data.
Proof.
  intros [Hlen [Hnodup Hrange]].
  set (drawn := random_choice (length data) (length data)) in *.
  pose proof (NatSort.Permuted_sort drawn) as Hperm.
  assert (Hsort : NatSort.sort drawn = seq 0 (length data)).
  { apply increasing_is_range.
    - now apply sort_increasing.
    - rewrite Forall_forall in *. intros i Hi.
      assert (Hd : In i drawn)
        by (eapply Permutation_in; [symmetry; exact Hperm | exact Hi]).
      specialize (Hrange i Hd). lia.
    - rewrite <- (Permutation_length Hperm). exact Hlen. }
  unfold downsample. rewrite Nat.leb_refl. fold drawn. rewrite Hsort.
  exact (take_rows_all [] data).
Qed.

Lemma sorted_permutation_unique (l1 l2 : list nat) :
  StronglySorted le l1 -> StronglySorted le l2 -> Permutation l1 l2 ->
  l1 = l2.
Proof.
  intros H1. revert l2. induction H1 as [| x l1 Hs1 IH Hx]; intros l2 H2 Hp.
  - apply Permutation_nil in Hp. now subst.
  - destruct H2 as [| y l2 Hs2 Hy].
    + symmetry in Hp. apply Permutation_nil in Hp. discriminate.
    + assert (Hxy : x = y).
      { rewrite Forall_forall in Hx, Hy.
        assert (Hin1 : In x (y :: l2))
          by (eapply Permutation_in; [exact Hp | now left]).
        assert (Hin2 : In y (x :: l1))
          by (eapply Permutation_in; [symmetry; exact Hp | now left]).
        destruct Hin1 as [-> | Hin1]; [reflexivity |].
        destruct Hin2 as [-> | Hin2]; [reflexivity |].
        specialize (Hx y Hin2). specialize (Hy x Hin1). lia. }
      subst y. f_equal. apply IH; [exact Hs2 |].
      eapply Permutation_cons_inv. exact Hp.
Qed.

Lemma sort_le_sorted (l : list nat) : StronglySorted le (NatSort.sort l).
Proof.
  assert (Hsorted : StronglySorted (fun x y => is_true (x <=? y))
                      (NatSort.sort l)).
  { apply Sorted_StronglySorted.
    - intros x y z Hxy Hyz. apply Nat.leb_le in Hxy, Hyz.
      apply Nat.leb_le. lia.
    - apply NatSort.Sorted_sort. }
  induction Hsorted as [| x rest _ IH Hx]; constructor; [exact IH |].
  eapply Forall_impl; [| exact Hx]. intros y Hy. now apply Nat.leb_le.
Qed.

(** X10: the result of [downsample] depends on which indices the
    generator drew, not on the order it drew them in: two draws that are
    permutations of each other give the same result. *)
Theorem downsample_draw_order (row : Type)
  (draw1 draw2 : nat -> nat -> list nat) (data : list row) (n : nat) :
  Permutation (draw1 (length data) n) (draw2 (length data) n) ->
  downsample draw1 data n = downsample draw2 data n.
Proof.
  intros Hperm. unfold downsample.
  destruct (n <=? length data); [| reflexivity].
  f_equal. apply sorted_permutation_unique; try apply sort_le_sorted.
  eapply perm_trans; [symmetry; apply NatSort.Permuted_sort |].
  eapply perm_trans; [exact Hperm | apply NatSort.Permuted_sort].
Qed.

Lemma rows_at_increasing_indices (row : Type) (data : list row)
  (indices : list nat) (out : list row) :
  NoDup data ->
  StronglySorted lt indices ->
  Forall2 (fun i x => nth_error data i = Some x) indices out ->
  NoDup out.
Proof.
  intros Hnd Hsorted Hrows.
  induction Hrows as [| i x indices out Hix Hrows IH]; [constructor |].
  inversion Hsorted as [| ? ? Hsorted' Hall]; subst.
  constructor; [| now apply IH].
  intros Hin.
  assert (Hex : exists j, In j indices /\ nth_error data j = Some x).
  { clear - Hrows Hin. induction Hrows as [| j y indices out Hjy _ IHr];
      [contradiction |].
    destruct Hin as [-> | Hin].
    - exists j. split; [now left | exact Hjy].
    - destruct (IHr Hin) as [j' [Hj' Hx]]. exists j'. split; [now right | exact Hx]. }
  destruct Hex as [j [Hj Hjx]].
  rewrite Forall_forall in Hall. specialize (Hall j Hj).
  assert (Hij : i = j).
  { apply (proj1 (NoDup_nth_error data) Hnd).
    - apply nth_error_Some. rewrite Hix. discriminate.
    - now rewrite Hix, Hjx. }
  lia.
Qed.

Lemma downsample_indices (row : Type)
  (random_choice : nat -> nat -> list nat) (data : list row) (n : nat) :
  drawn_without_replacement (length data) n
    (random_choice (length data) n) ->
  n <= length data ->
  exists indices out,
    downsample random_choice data n = Ok out /\
    StronglySorted lt indices /\
    Forall2 (fun i x => nth_error data i = Some x) indices out.
Proof.
  intros [Hlen [Hnodup Hrange]] Hn.
  set (drawn := random_choice (length data) n) in *.
  assert (Hrange' : Forall (fun i => i < length data) (NatSort.sort drawn)).
  { rewrite Forall_forall in *. intros i Hi. apply Hrange.
    eapply Permutation_in; [symmetry; apply NatSort.Permuted_sort | exact Hi]. }
  destruct (@take_rows_in_range row data _ Hrange') as [out [Hrun Hout]].
  exists (NatSort.sort drawn), out. repeat split.
  - unfold downsample.
    destruct (Nat.leb_spec n (length data)) as [_ | H]; [exact Hrun | lia].
  - now apply sort_increasing.
  - exact Hout.
Qed.

(** X11: when the rows of the data are pairwise different, so are the
    rows [downsample] returns: no row is returned twice. *)
Theorem downsample_distinct_rows (row : Type)
  (random_choice : nat -> nat -> list nat) (data : list row) (n : nat) :
  drawn_without_replacement (length data) n
    (random_choice (length data) n) ->
  n <= length data ->
  NoDup data ->
  exists out,
    downsample random_choice data n = Ok out /\ NoDup out.
Proof.
  intros Hdraw Hn Hnd.
  destruct (@downsample_indices row random_choice data n Hdraw Hn)
    as [indices [out [Hrun [Hsorted Hrows]]]].
  exists out. split; [exact Hrun |].
  exact (@rows_at_increasing_indices row data indices out Hnd Hsorted Hrows).
Qed.

(** ** Failures of the constructor *)

Section InitOutcome.

Variables point_t options_t : Type.
Variable search : list point_t -> options_t -> float -> result csr_matrix.
Variable solver : bool -> csr_matrix -> nat -> result (list R * list (list R)).

(** X12: when the neighbour search returns a well-formed distance
    matrix, the kernel stage of [__init__] cannot fail, normalised or
    not: the kernel matrix has the stored positions of the distance
    matrix, the solver is called on it, and [__init__] fails exactly when
    the solver fails, with the solver's error, and otherwise returns the
    object holding the kernel matrix and the solver's pairs. *)
Theorem init_outcome_is_solver_outcome (points : list point_t) (eps : float)
  (cut_off : option float) (k : nat) (normalize : bool) (opts : options_t)
  (cuda : bool) (dm : csr_matrix) :
  search points opts (DiffusionMaps.init_cut_off eps cut_off) = Ok dm ->
  well_formed dm ->
  exists km,
    DiffusionMaps.init_kernel_matrix eps normalize dm = Ok km /\
    stored_positions km = stored_positions dm /\
    DiffusionMaps.__init__ search solver points eps cut_off k normalize
      opts cuda
    = match solver cuda km k with
      | Ok pairs =>
          Ok {| DiffusionMaps.epsilon := eps;
                DiffusionMaps._cut_off :=
                  DiffusionMaps.init_cut_off eps cut_off;
                DiffusionMaps.kernel_matrix := km;
                DiffusionMaps.eigenvalues := fst pairs;
                DiffusionMaps.eigenvectors := snd pairs |}
      | Err e => Err e
      end.
Proof.
  intros Hsearch Hwf.
  assert (Hkm : exists km,
             DiffusionMaps.init_kernel_matrix eps normalize dm = Ok km).
  { unfold DiffusionMaps.init_kernel_matrix. destruct normalize.
    - destruct (@make_stochastic_matrix_ok _
                  (@kernel_matrix_well_formed eps dm Hwf))
        as [d' [Hrun _]].
      rewrite Hrun. simpl. eauto.
    - eauto. }
  destruct Hkm as [km Hkm]. exists km. split; [exact Hkm |].
  destruct (init_kernel_matrix_structure _ _ _ Hkm) as [Hs [Hi Hp]].
  split; [now apply stored_positions_structure |].
  unfold DiffusionMaps.__init__. rewrite Hsearch. simpl.
  rewrite Hkm. simpl. now destruct (solver cuda km k).
Qed.

End InitOutcome.

(** ** A call that raises has already changed the matrix *)

Lemma normalize_rows_app (ptr rows1 rows2 : list nat) (d : list float) :
  normalize_rows ptr (rows1 ++ rows2) d
  = match normalize_rows ptr rows1 d with
    | (d1, Ok _) => normalize_rows ptr rows2 d1
    | (d1, Err e) => (d1, Err e)
    end.
Proof.
  revert d. induction rows1 as [| i rows1 IH]; intros d; [reflexivity |].
  simpl.
  destruct (slice i (i + 2) ptr) as [| a [| b [| c rest]]];
    try reflexivity.
  apply IH.
Qed.

Lemma normalize_rows_stops (ptr rows : list nat) (i : nat) (d : list float) :
  length ptr <= S i ->
  normalize_rows ptr (i :: rows) d = (d, Err ValueError).
Proof.
  intros Hshort. simpl.
  pose proof (@slice_unpack_short ptr i Hshort) as H.
  destruct (slice i (i + 2) ptr) as [| a [| b [| c rest]]];
    try reflexivity; contradiction.
Qed.

(** X13: a call of [make_stochastic_matrix] that raises has already
    normalised, in place, the rows before the one it fails at.  When
    [indptr] does not decrease and has at least one element but no more
    elements than there are rows, the call raises [ValueError] and every
    row whose two bounds are in [indptr] holds its values divided by
    their sum. *)
Theorem make_stochastic_matrix_partial_update (m : csr_matrix) :
  nondecreasing (indptr m) ->
  0 < length (indptr m) <= fst (shape m) ->
  exists d',
    make_stochastic_matrix m = (_with_data m d', Err ValueError) /\
    forall i, S i < length (indptr m) ->
      row_slice (indptr m) i d'
      = map (fun x => Float.div x (Float.sum (row_values m i)))
          (row_values m i).
Proof.
  intros Hmono [Hpos Hshort].
  set (L := length (indptr m)) in *. set (N := fst (shape m)) in *.
  assert (Hsplit : seq 0 N = seq 0 (L - 1) ++ (L - 1) :: seq L (N - L)).
  { assert (HN : N = (L - 1) + S (N - L)) by lia.
    rewrite HN at 1. rewrite seq_app. simpl. do 3 f_equal. lia. }
  destruct (@normalize_rows_ok (indptr m) (seq 0 (L - 1)) (data m))
    as [d1 [Hrun Hrows]].
  - exact Hmono.
  - apply seq_NoDup.
  - apply Forall_forall. intros i Hi. apply in_seq in Hi. fold L. lia.
  - exists d1. split.
    + unfold make_stochastic_matrix. fold N. rewrite Hsplit.
      rewrite normalize_rows_app, Hrun.
      rewrite normalize_rows_stops by (fold L; lia). reflexivity.
    + intros i Hi. destruct (Hrows i Hi) as [Hin _].
      apply Hin. apply in_seq. lia.
Qed.

(** ** Weights on a band, a NaN distance, a short [indptr] *)

Lemma example_weights_well_formed : well_formed example_weights.
Proof.
  constructor; simpl; auto; try solve [repeat constructor].
  intros i j Hij Hj. simpl in Hj.
  do 4 (destruct j as [| j]; [do 4 (destruct i as [| i]; simpl; try lia) |]).
  lia.
Qed.

Lemma example_weights_nonnegative :
  Forall nonnegative (data example_weights).
Proof. repeat constructor; simpl; lra. Qed.

Lemma poisoned_distances_well_formed : well_formed poisoned_distances.
Proof.
  constructor; simpl; auto; try solve [repeat constructor].
  intros i j Hij Hj. simpl in Hj.
  destruct j as [| [| j]]; destruct i as [| [| i]]; simpl; lia.
Qed.

Lemma short_indptr_nondecreasing : nondecreasing (indptr short_indptr).
Proof.
  intros i j Hij Hj. simpl in Hj.
  destruct j as [| [| j]]; destruct i as [| [| i]]; simpl; lia.
Qed.

Example short_indptr_raises :
  snd (make_stochastic_matrix short_indptr) = Err ValueError.
Proof. reflexivity. Qed.

Lemma make_stochastic_matrix_divides_by_row_sum_witness :
  well_formed example_weights /\
  exists m',
    make_stochastic_matrix example_weights = (m', Ok tt) /\
    length (data m') = 7.
Proof.
  split; [exact example_weights_well_formed |].
  destruct (@make_stochastic_matrix_divides_by_row_sum example_weights
              example_weights_well_formed) as [m' [Hrun [Hlen _]]].
  exists m'. split; [exact Hrun | exact Hlen].
Defined.

Lemma nan_distance_poisons_row_witness :
  well_formed poisoned_distances /\
  In NaN (row_values poisoned_distances 0) /\
  exists M,
    DiffusionMaps.init_kernel_matrix (Finite 1) true poisoned_distances
    = Ok M /\
    Forall (eq NaN) (row_values M 0).
Proof.
  assert (Hin : In NaN (row_values poisoned_distances 0))
    by (right; left; reflexivity).
  split; [exact poisoned_distances_well_formed |].
  split; [exact Hin |].
  destruct (@nan_distance_poisons_row (Finite 1) poisoned_distances 0
              poisoned_distances_well_formed (le_n 1) Hin)
    as [M [HM [_ Hall]]].
  exists M. split; [exact HM | exact Hall].
Defined.

Lemma example_draw_all_without_replacement :
  drawn_without_replacement 3 3 (example_draw_all 3 3).
Proof.
  unfold drawn_without_replacement, example_draw_all.
  split; [reflexivity |]. split.
  - repeat constructor; simpl; lia.
  - repeat constructor.
Qed.

Lemma downsample_all_witness :
  drawn_without_replacement 3 3 (example_draw_all 3 3) /\
  downsample example_draw_all [10; 20; 30] 3 = Ok [10; 20; 30].
Proof.
  split; [exact example_draw_all_without_replacement |].
  exact (@downsample_all nat example_draw_all [10; 20; 30]
           example_draw_all_without_replacement).
Defined.

Lemma example_draws_permutation :
  Permutation (example_draw 5 3) (example_draw_shuffled 5 3).
Proof.
  unfold example_draw, example_draw_shuffled.
  apply perm_trans with [0; 3; 2]; [apply perm_swap |].
  apply perm_skip, perm_swap.
Qed.

Lemma downsample_draw_order_witness :
  Permutation (example_draw 5 3) (example_draw_shuffled 5 3) /\
  downsample example_draw [10; 20; 30; 40; 50] 3
  = downsample example_draw_shuffled [10; 20; 30; 40; 50] 3.
Proof.
  split; [exact example_draws_permutation |].
  exact (@downsample_draw_order nat example_draw example_draw_shuffled
           [10; 20; 30; 40; 50] 3 example_draws_permutation).
Defined.

Lemma downsample_distinct_rows_witness :
  drawn_without_replacement 5 3 (example_draw 5 3) /\
  3 <= 5 /\
  NoDup [10; 20; 30; 40; 50] /\
  exists out,
    downsample example_draw [10; 20; 30; 40; 50] 3 = Ok out /\ NoDup out.
Proof.
  assert (Hn : 3 <= 5) by lia.
  assert (Hnd : NoDup [10; 20; 30; 40; 50])
    by (repeat constructor; simpl; lia).
  split; [exact example_draw_without_replacement |].
  split; [exact Hn |]. split; [exact Hnd |].
  exact (@downsample_distinct_rows nat example_draw [10; 20; 30; 40; 50] 3
           example_draw_without_replacement Hn Hnd).
Defined.

Lemma init_outcome_is_solver_outcome_witness :
  single_point_search [tt] tt
    (DiffusionMaps.init_cut_off (Finite 1) None) = Ok zero_row /\
  well_formed zero_row /\
  exists km,
    DiffusionMaps.init_kernel_matrix (Finite 1) true zero_row = Ok km /\
    stored_positions km = stored_positions zero_row.
Proof.
  split; [reflexivity |]. split; [exact zero_row_well_formed |].
  destruct (@init_outcome_is_solver_outcome unit unit single_point_search
              single_point_solver [tt] (Finite 1) None 1 true tt false
              zero_row eq_refl zero_row_well_formed)
    as [km [Hkm [Hpos _]]].
  exists km. split; [exact Hkm | exact Hpos].
Defined.

Lemma make_stochastic_matrix_partial_update_witness :
  nondecreasing (indptr short_indptr) /\
  0 < length (indptr short_indptr) <= fst (shape short_indptr) /\
  exists d',
    make_stochastic_matrix short_indptr
    = (_with_data short_indptr d', Err ValueError) /\
    row_slice (indptr short_indptr) 0 d'
    = map (fun x => Float.div x (Float.sum (row_values short_indptr 0)))
        (row_values short_indptr 0).
Proof.
  assert (Hlen : 0 < length (indptr short_indptr)
                 <= fst (shape short_indptr)) by (simpl; lia).
  split; [exact short_indptr_nondecreasing |]. split; [exact Hlen |].
  destruct (@make_stochastic_matrix_partial_update short_indptr
              short_indptr_nondecreasing Hlen) as [d' [Hrun Hrows]].
  exists d'. split; [exact Hrun |].
  apply Hrows. simpl. lia.
Defined.

(** * Values of the kernel matrix *)

(** ** Entries of the kernel matrix *)

Lemma kernel_matrix_value (eps : R) (dm : csr_matrix) (k : nat) (d : float) :
  (0 < eps)%R ->
  is_distance d ->
  nth_error (data dm) k = Some d ->
  exists r v,
    d = Finite r /\ (0 <= r)%R /\
    DiffusionMaps.kernel (Finite eps) d = Finite v /\
    nth_error (data (DiffusionMaps._compute_kernel_matrix (Finite eps) dm)) k
    = Some (Finite v) /\
    (0 <= v <= 1)%R /\
    ((r * r <= 1400 * eps)%R -> (0 < v)%R) /\
    ((1500 * eps <= r * r)%R -> v = 0%R).
Proof.
  intros Heps Hd Hk.
  destruct (is_distance_finite d Hd) as [r [-> Hr]].
  destruct (kernel_unit_interval r Heps) as [v [Hv [Hrange [Hpos Hzero]]]].
  exists r, v. repeat split; try assumption; try lra.
  rewrite kernel_matrix_data, nth_error_map, Hk. simpl. now rewrite Hv.
Qed.

(** C1, as the code has it: for a distance matrix whose stored values are
    distances and a bandwidth [0 < eps <= max_epsilon], the kernel matrix
    stores as many values as the distance matrix; the value at each
    stored place is the kernel function of the distance [d] stored
    there, a finite number in [0, 1], above 0 when [d^2 <= 1400 eps] and
    equal to 0 (the exponential underflows) when [d^2 >= 1500 eps]; of
    two stored distances [d1 <= d2] the first has the kernel value that
    is at least the other's. *)
Theorem kernel_entries_unit_interval (eps : R) (dm : csr_matrix) :
  (0 < eps <= max_epsilon)%R ->
  Forall is_distance (data dm) ->
  let km := DiffusionMaps._compute_kernel_matrix (Finite eps) dm in
  length (data km) = length (data dm) /\
  (forall k d, nth_error (data dm) k = Some d ->
     exists v,
       nth_error (data km) k = Some (Finite v) /\
       DiffusionMaps.kernel (Finite eps) d = Finite v /\
       (0 <= v <= 1)%R /\
       ((Float.val d * Float.val d <= 1400 * eps)%R -> (0 < v)%R) /\
       ((1500 * eps <= Float.val d * Float.val d)%R -> v = 0%R)) /\
  (forall k1 k2 d1 d2 v1 v2,
     nth_error (data dm) k1 = Some d1 ->
     nth_error (data dm) k2 = Some d2 ->
     nth_error (data km) k1 = Some v1 ->
     nth_error (data km) k2 = Some v2 ->
     (Float.val d1 <= Float.val d2)%R ->
     Float.finite v1 /\ Float.finite v2 /\
     (Float.val v2 <= Float.val v1)%R).
Proof.
  intros [Heps _] Hdist km.
  assert (Hin : forall k d, nth_error (data dm) k = Some d -> is_distance d).
  { intros k d Hk. rewrite Forall_forall in Hdist. apply Hdist.
    eapply nth_error_In; eauto. }
  split; [| split].
  - unfold km. rewrite kernel_matrix_data. apply length_map.
  - intros k d Hk.
    destruct (@kernel_matrix_value eps dm k d Heps (Hin k d Hk) Hk)
      as [r [v [-> [_ [Hv [Hkm [Hrange [Hpos Hzero]]]]]]]].
    exists v. simpl. repeat split; try assumption; lra.
  - intros k1 k2 d1 d2 v1 v2 H1 H2 Hv1 Hv2 Hle.
    destruct (@kernel_matrix_value eps dm k1 d1 Heps (Hin k1 d1 H1) H1)
      as [r1 [w1 [-> [Hr1 [Hw1 [Hkm1 _]]]]]].
    destruct (@kernel_matrix_value eps dm k2 d2 Heps (Hin k2 d2 H2) H2)
      as [r2 [w2 [-> [Hr2 [Hw2 [Hkm2 _]]]]]].
    fold km in Hkm1, Hkm2. rewrite Hkm1 in Hv1. rewrite Hkm2 in Hv2.
    injection Hv1 as <-. injection Hv2 as <-. simpl in Hle.
    repeat split; try exact I.
    pose proof (@kernel_antitone eps r1 r2 Heps Hr1 Hle) as Hanti.
    now rewrite Hw1, Hw2 in Hanti.
Qed.

Lemma max_epsilon_above_one : (1 <= max_epsilon)%R.
Proof. unfold max_epsilon. lra. Qed.

Lemma far_points_are_distances :
  Forall is_distance (data far_points_distances).
Proof. repeat constructor; simpl; lra. Qed.

(** C1 fails on the code: for the two points 0 and 800 and the bandwidth
    400, whose default cut-off 800 keeps the pair, the kernel value of
    the stored distance 800 is [exp(-800)], which is 0.0 in float64: a
    stored kernel entry outside (0, 1]. *)
Lemma kernel_entry_underflows :
  (0 < 400)%R /\
  Forall is_distance (data far_points_distances) /\
  nth_error (data far_points_distances) 1 = Some (Finite 800) /\
  nth_error
    (data (DiffusionMaps._compute_kernel_matrix (Finite 400)
             far_points_distances)) 1
  = Some (Finite 0) /\
  ~ (0 < Float.val (Finite 0) <= 1)%R.
Proof.
  assert (H400 : (0 < 400)%R) by lra.
  split; [exact H400 |]. split; [exact far_points_are_distances |].
  split; [reflexivity |]. split; [| simpl; lra].
  destruct (@kernel_matrix_value 400 far_points_distances 1 (Finite 800)
              H400) as [r [v [Hr [_ [_ [Hkm [_ [_ Hzero]]]]]]]].
  - simpl. lra.
  - reflexivity.
  - injection Hr as <-. rewrite Hkm. do 2 f_equal. apply Hzero. lra.
Qed.

(** ** Rows of the normalised kernel matrix *)

Lemma find_column_In (j : nat) (cols : list nat) (vals : list float)
  (x : float) :
  find_column j cols vals = Some x -> In x vals.
Proof.
  revert vals. induction cols as [| c cols IH]; intros vals; [discriminate |].
  destruct vals as [| v vals]; [discriminate |]. simpl.
  destruct (c =? j).
  - intros [= <-]. now left.
  - intros H. right. now apply IH.
Qed.

Lemma kernel_matrix_nonnegative (eps : R) (dm : csr_matrix) :
  (0 < eps)%R -> finite_data dm ->
  Forall nonnegative
    (data (DiffusionMaps._compute_kernel_matrix (Finite eps) dm)).
Proof.
  intros Heps Hfin. rewrite kernel_matrix_data. apply Forall_map.
  eapply Forall_impl; [| exact Hfin].
  intros d Hd. now apply kernel_nonnegative.
Qed.

Lemma kernel_row_has_one (eps : R) (dm : csr_matrix) (i : nat) :
  (0 < eps)%R ->
  stored_entry dm i i = Some (Finite 0) ->
  In (Finite 1)
    (row_values (DiffusionMaps._compute_kernel_matrix (Finite eps) dm) i).
Proof.
  intros Heps Hdiag.
  apply (@find_column_In i
           (row_columns (DiffusionMaps._compute_kernel_matrix (Finite eps) dm)
              i)).
  fold (stored_entry (DiffusionMaps._compute_kernel_matrix (Finite eps) dm)
          i i).
  rewrite kernel_matrix_stored_entry, Hdiag. simpl.
  now rewrite kernel_zero.
Qed.

Lemma probability_nonnegative (l : list float) :
  Forall probability l -> Forall nonnegative l.
Proof. apply Forall_impl. intros [r | s | ]; simpl; tauto. Qed.

Lemma normalized_kernel_rows (eps : R) (dm : csr_matrix) :
  (0 < eps)%R ->
  well_formed dm ->
  finite_data dm ->
  (forall i, i < fst (shape dm) -> stored_entry dm i i = Some (Finite 0)) ->
  let km := DiffusionMaps._compute_kernel_matrix (Finite eps) dm in
  exists d',
    make_stochastic_matrix km = (_with_data km d', Ok tt) /\
    forall i, i < fst (shape dm) ->
      row_slice (indptr dm) i d'
      = map (fun x => Float.div x (Float.sum (row_values km i)))
          (row_values km i) /\
      In (Finite 1) (row_values km i) /\
      Forall probability (row_slice (indptr dm) i d') /\
      Rsum (map Float.val (row_slice (indptr dm) i d')) = 1%R.
Proof.
  intros Heps Hwf Hfin Hdiag km.
  assert (Hkwf : well_formed km) by now apply kernel_matrix_well_formed.
  assert (Hnn : Forall nonnegative (data km))
    by now apply kernel_matrix_nonnegative.
  destruct (make_stochastic_matrix_ok Hkwf) as [d' [Hrun [_ Hrows]]].
  exists d'. split; [exact Hrun |].
  intros i Hi.
  assert (Hrow : row_slice (indptr dm) i d'
                 = map (fun x => Float.div x (Float.sum (row_values km i)))
                     (row_values km i)) by exact (Hrows i Hi).
  assert (Hone : In (Finite 1) (row_values km i))
    by (apply kernel_row_has_one; auto).
  assert (Hrnn : Forall nonnegative (row_values km i))
    by (apply Forall_slice; exact Hnn).
  assert (Hsum : Rsum (map Float.val (row_values km i)) <> 0%R).
  { pose proof (@nonnegative_le_sum _ _ Hrnn Hone) as H. simpl in H. lra. }
  destruct (@normalized_probabilities _ Hrnn Hsum) as [Hprob Hs].
  rewrite Hrow. repeat split; assumption.
Qed.

Lemma normalized_single_one :
  map (fun y => Float.div y (Float.sum [Finite 1])) [Finite 1] = [Finite 1].
Proof.
  unfold Float.sum. simpl. rewrite is_zero_false by lra.
  do 2 f_equal. field.
Qed.

Lemma kernel_matrix_row_values (eps : float) (dm : csr_matrix) (i : nat) :
  row_values (DiffusionMaps._compute_kernel_matrix eps dm) i
  = map (DiffusionMaps.kernel eps) (row_values dm i).
Proof.
  unfold row_values, row_slice. simpl. apply slice_map.
Qed.

(** C3: with [normalize_kernel=True], a bandwidth
    [0 < eps <= max_epsilon] and the well-formed distance matrix of
    finite values in which every point is stored with itself at
    distance 0, the normalisation returns normally and the kernel matrix
    the object exposes has the shape and the stored positions of the
    distance matrix; every row of it holds the kernel values of the row
    divided by their sum, stores at least one value, has values that are
    finite and between 0 and 1, and sums to 1 within 1e-9; a row whose
    only stored position is its diagonal stores the single value 1. *)
Theorem normalized_rows_sum_to_one (eps : R) (dm : csr_matrix) :
  (0 < eps <= max_epsilon)%R ->
  well_formed dm ->
  finite_data dm ->
  (forall i, i < fst (shape dm) -> stored_entry dm i i = Some (Finite 0)) ->
  let km := DiffusionMaps._compute_kernel_matrix (Finite eps) dm in
  exists M,
    DiffusionMaps.init_kernel_matrix (Finite eps) true dm = Ok M /\
    shape M = shape dm /\
    indices M = indices dm /\
    indptr M = indptr dm /\
    (forall i, i < fst (shape dm) ->
       row_values M i
       = map (fun x => Float.div x (Float.sum (row_values km i)))
           (row_values km i) /\
       row_values M i <> [] /\
       Forall probability (row_values M i) /\
       (Rabs (row_sum M i - 1) <= 1e-9)%R) /\
    (forall i, i < fst (shape dm) -> row_columns M i = [i] ->
       row_values M i = [Finite 1]).
Proof.
  intros [Heps _] Hwf Hfin Hdiag km.
  destruct (@normalized_kernel_rows eps dm Heps Hwf Hfin Hdiag)
    as [d' [Hrun Hrows]].
  fold km in Hrun, Hrows.
  exists (_with_data km d'). split; [| split; [| split; [| split; [| split]]]];
    try reflexivity.
  - unfold DiffusionMaps.init_kernel_matrix. fold km. now rewrite Hrun.
  - intros i Hi. destruct (Hrows i Hi) as [Hrow [Hone [Hprob Hsum]]].
    change (row_values (_with_data km d') i)
      with (row_slice (indptr dm) i d').
    unfold row_sum.
    change (row_values (_with_data km d') i)
      with (row_slice (indptr dm) i d').
    repeat split; try assumption.
    + rewrite Hrow. intros Hempty.
      apply map_eq_nil in Hempty. rewrite Hempty in Hone. contradiction.
    + rewrite Hsum. replace (1 - 1)%R with 0%R by lra.
      rewrite Rabs_R0. lra.
  - intros i Hi Hcols. destruct (Hrows i Hi) as [Hrow _].
    change (row_values (_with_data km d') i)
      with (row_slice (indptr dm) i d').
    rewrite Hrow.
    change (row_columns (_with_data km d') i) with (row_columns dm i)
      in Hcols.
    assert (Hlen : length (row_values dm i) = 1).
    { unfold row_values.
      rewrite <- (@row_slice_lengths _ _ (indptr dm) i (indices dm) (data dm)
                    (wf_indices_length Hwf)).
      fold (row_columns dm i). now rewrite Hcols. }
    pose proof (Hdiag i Hi) as Hd. unfold stored_entry in Hd.
    rewrite Hcols in Hd.
    unfold km. rewrite kernel_matrix_row_values.
    destruct (row_values dm i) as [| x [| y rest]]; try discriminate.
    simpl in Hd. rewrite Nat.eqb_refl in Hd. injection Hd as ->.
    simpl map at 2. simpl map at 2. rewrite kernel_zero by assumption.
    apply normalized_single_one.
Qed.

(** ** The largest eigenvalue *)

Lemma normalized_kernel_stochastic (eps : R) (dm : csr_matrix) :
  (0 < eps)%R ->
  well_formed dm ->
  finite_data dm ->
  fst (shape dm) = snd (shape dm) ->
  (forall i, i < fst (shape dm) -> stored_entry dm i i = Some (Finite 0)) ->
  exists M,
    DiffusionMaps.init_kernel_matrix (Finite eps) true dm = Ok M /\
    shape M = shape dm /\
    row_stochastic M.
Proof.
  intros Heps Hwf Hfin Hsquare Hdiag.
  set (km := DiffusionMaps._compute_kernel_matrix (Finite eps) dm).
  destruct (@normalized_kernel_rows eps dm Heps Hwf Hfin Hdiag)
    as [d' [Hrun Hrows]].
  fold km in Hrun, Hrows.
  exists (_with_data km d'). split; [| split].
  - unfold DiffusionMaps.init_kernel_matrix. fold km. now rewrite Hrun.
  - reflexivity.
  - intros i Hi. simpl in Hi.
    destruct (Hrows i Hi) as [Hrow [_ [Hprob Hsum]]].
    change (row_values (_with_data km d') i)
      with (row_slice (indptr dm) i d').
    change (row_columns (_with_data km d') i) with (row_columns dm i).
    unfold row_sum.
    change (row_values (_with_data km d') i)
      with (row_slice (indptr dm) i d').
    repeat split.
    + rewrite Hrow, length_map. unfold km.
      rewrite kernel_matrix_row_values, length_map.
      unfold row_columns, row_values. apply row_slice_lengths.
      exact (wf_indices_length Hwf).
    + apply Forall_slice. simpl. rewrite Hsquare.
      exact (wf_indices_range Hwf).
    + now apply probability_nonnegative.
    + exact Hsum.
Qed.

Section SolverFacts.

Variables point_t options_t : Type.
Variable search : list point_t -> options_t -> float -> result csr_matrix.
Variable solver : bool -> csr_matrix -> nat -> result (list R * list (list R)).

(** C7: for a solver that keeps the contract, the object holds the
    kernel matrix the solver was called on, as many eigenvalues and
    eigenvectors as were asked for, each pair an eigenpair of that
    matrix, and the eigenvalues are in descending order.  With
    [normalize_kernel=True], a bandwidth [0 < eps <= max_epsilon] and the
    square, well-formed distance matrix of finite values in which every
    point is stored with itself at distance 0, when at least one
    eigenpair is asked for the first eigenvalue is the largest
    eigenvalue of the exposed matrix and is within 1e-6 of 1. *)
Theorem eigenvalues_descending_from_one (points : list point_t) (eps : R)
  (cut_off : option float) (k : nat) (normalize : bool) (opts : options_t)
  (cuda : bool) (dm km : csr_matrix) (obj : DiffusionMaps.t) :
  (0 < eps <= max_epsilon)%R ->
  search points opts (DiffusionMaps.init_cut_off (Finite eps) cut_off)
  = Ok dm ->
  well_formed dm ->
  finite_data dm ->
  fst (shape dm) = snd (shape dm) ->
  (forall i, i < fst (shape dm) -> stored_entry dm i i = Some (Finite 0)) ->
  DiffusionMaps.init_kernel_matrix (Finite eps) normalize dm = Ok km ->
  eigensolver_contract km k (solver cuda km k) ->
  DiffusionMaps.__init__ search solver points (Finite eps) cut_off k
    normalize opts cuda = Ok obj ->
  DiffusionMaps.kernel_matrix obj = km /\
  length (DiffusionMaps.eigenvalues obj) = k /\
  length (DiffusionMaps.eigenvectors obj) = k /\
  descending (DiffusionMaps.eigenvalues obj) /\
  (forall i, i < k ->
     eigenvector (DiffusionMaps.kernel_matrix obj)
       (nth i (DiffusionMaps.eigenvalues obj) 0%R)
       (nth i (DiffusionMaps.eigenvectors obj) [])) /\
  (normalize = true -> 1 <= k ->
   (forall mu, eigenvalue (DiffusionMaps.kernel_matrix obj) mu ->
      (mu <= hd 0 (DiffusionMaps.eigenvalues obj))%R) /\
   (Rabs (hd 0 (DiffusionMaps.eigenvalues obj) - 1) <= 1e-6)%R).
Proof.
  intros [Heps _] Hsearch Hwf Hfin Hsquare Hdiag Hkernel Hcontract Hinit.
  unfold DiffusionMaps.__init__ in Hinit.
  rewrite Hsearch in Hinit. simpl in Hinit.
  rewrite Hkernel in Hinit. simpl in Hinit.
  unfold eigensolver_contract in Hcontract.
  destruct (solver cuda km k) as [[ew ev] | e]; simpl in Hinit;
    [| discriminate].
  injection Hinit as <-. simpl.
  destruct (Nat.ltb_spec (fst (shape km)) k) as [Hlt | Hge];
    [discriminate |].
  destruct Hcontract as [Hlen [Hlenv [Hdesc [Hpairs Htop]]]].
  split; [reflexivity |]. split; [exact Hlen |]. split; [exact Hlenv |].
  split; [exact Hdesc |].
  split; [intros i Hi; now apply Hpairs |].
  intros -> Hk.
  destruct (@normalized_kernel_stochastic eps dm Heps Hwf Hfin Hsquare Hdiag)
    as [M [HM [_ Hst]]].
  rewrite Hkernel in HM. injection HM as <-.
  destruct ew as [| e0 rest]; [simpl in Hlen; lia |].
  assert (Hle : (e0 <= 1)%R).
  { apply (stochastic_eigenvalue_le_one Hst).
    exists (nth 0 ev []). apply (Hpairs 0). lia. }
  assert (Hone : eigenvalue km 1)
    by (apply stochastic_eigenvalue_one; [exact Hst | lia]).
  assert (Hge1 : (1 <= e0)%R).
  { destruct (Htop 1%R Hone) as [Hin | Hall].
    - now apply (descending_head Hdesc).
    - apply Hall. now left. }
  assert (He0 : e0 = 1%R) by lra. subst e0. simpl. split.
  - intros mu Hmu. now apply (stochastic_eigenvalue_le_one Hst).
  - replace (1 - 1)%R with 0%R by lra. rewrite Rabs_R0. lra.
Qed.

End SolverFacts.

(** ** Two points at distance 1 *)

Lemma two_points_well_formed : well_formed two_points_distances.
Proof.
  constructor; simpl; auto; try solve [repeat constructor].
  intros i j Hij Hj. simpl in Hj.
  do 3 (destruct j as [| j]; [do 3 (destruct i as [| i]; simpl; try lia) |]).
  lia.
Qed.

Lemma two_points_finite : finite_data two_points_distances.
Proof. repeat constructor. Qed.

Lemma two_points_diagonal (i : nat) :
  i < fst (shape two_points_distances) ->
  stored_entry two_points_distances i i = Some (Finite 0).
Proof.
  intros Hi. simpl in Hi.
  destruct i as [| [| i]]; [reflexivity | reflexivity | lia].
Qed.

Lemma two_points_affinity_positive : (0 < two_points_affinity)%R.
Proof. apply exp_pos. Qed.

Lemma kernel_at_one :
  DiffusionMaps.kernel (Finite 1) (Finite 1) = Finite two_points_affinity.
Proof.
  rewrite kernel_exponent by lra.
  replace (- (1 * 1) / (2 * 1))%R with (- (1 / 2))%R by field.
  unfold Float.exp, Float.exp_underflow, Float.exp_overflow.
  destruct (Rlt_dec (- (1 / 2)) (-7451332191019411 / 10000000000000))
    as [H | _]; [lra |].
  destruct (Rlt_dec (709782712893384 / 1000000000000) (- (1 / 2)))
    as [H | _]; [lra |].
  reflexivity.
Qed.

Lemma two_points_kernel_matrix :
  DiffusionMaps._compute_kernel_matrix (Finite 1) two_points_distances
  = _with_data two_points_distances
      (map Finite [1; two_points_affinity; two_points_affinity; 1]%R).
Proof.
  unfold DiffusionMaps._compute_kernel_matrix, DiffusionMaps.kernel_function.
  f_equal. unfold two_points_distances. cbn [data map].
  now rewrite (kernel_zero Rlt_0_1), kernel_at_one.
Qed.

Lemma two_points_kernel :
  DiffusionMaps.init_kernel_matrix (Finite 1) true two_points_distances
  = Ok two_points_matrix.
Proof.
  pose proof two_points_affinity_positive as Hg.
  unfold DiffusionMaps.init_kernel_matrix.
  rewrite two_points_kernel_matrix.
  unfold make_stochastic_matrix, slice, update_slice, Float.sum. cbn.
  unfold slice, update_slice, Float.sum. cbn.
  rewrite !is_zero_false by lra.
  unfold two_points_matrix, _with_data. cbn.
  replace (0 + 1 + two_points_affinity)%R with (1 + two_points_affinity)%R
    by lra.
  replace (0 + two_points_affinity + 1)%R with (1 + two_points_affinity)%R
    by lra.
  reflexivity.
Qed.

Lemma inv_sqrt2_square : (/ sqrt 2 * / sqrt 2 = / 2)%R.
Proof.
  rewrite <- Rinv_mult. f_equal. apply sqrt_sqrt. lra.
Qed.

Lemma inv_sqrt2_nonzero : (/ sqrt 2 <> 0)%R.
Proof.
  apply Rinv_neq_0_compat.
  assert (0 < sqrt 2)%R by (apply sqrt_lt_R0; lra). lra.
Qed.

Lemma two_points_contract :
  eigensolver_contract two_points_matrix 2
    (symmetric_pair_solver false two_points_matrix 2).
Proof.
  pose proof two_points_affinity_positive as Hg.
  pose proof inv_sqrt2_square as Hs.
  pose proof inv_sqrt2_nonzero as Hnz.
  set (g := two_points_affinity) in *.
  assert (Hab : (1 / (1 + g) + g / (1 + g) = 1)%R) by (field; lra).
  assert (Hb : (0 < g / (1 + g))%R)
    by (apply Rdiv_lt_0_compat; lra).
  unfold eigensolver_contract, symmetric_pair_solver. cbn.
  fold g. set (a := (1 / (1 + g))%R) in *. set (b := (g / (1 + g))%R) in *.
  split; [reflexivity |]. split; [reflexivity |]. split; [| split].
  - repeat constructor. lra.
  - intros i Hi. destruct i as [| [| i]]; [| | lia].
    + repeat split.
      * exists 0. simpl. exact Hnz.
      * unfold matvec, row_dot. cbn. fold g. fold a. fold b.
        f_equal; [ring | f_equal; ring].
      * unfold unit_norm. cbn. lra.
    + repeat split.
      * exists 0. simpl. exact Hnz.
      * unfold matvec, row_dot. cbn. fold g. fold a. fold b.
        f_equal; [ring | f_equal; ring].
      * unfold unit_norm. cbn.
        replace (- / sqrt 2 * - / sqrt 2)%R with (/ sqrt 2 * / sqrt 2)%R
          by ring.
        lra.
  - intros mu [v [Hlen [[i Hv] Heq]]].
    destruct v as [| x [| y [| z v]]]; try discriminate.
    unfold matvec, row_dot in Heq. cbn in Heq. fold g in Heq.
    fold a in Heq. fold b in Heq.
    injection Heq as H1 H2.
    assert (Hxy : x <> 0%R \/ y <> 0%R).
    { destruct i as [| [| i]]; simpl in Hv; [now left | now right |].
      destruct i; lra. }
    destruct (Req_dec_T (x + y) 0) as [Hz | Hz].
    + left. right. left.
      assert (Hy : y = (- x)%R) by lra. subst y.
      assert (Hx : x <> 0%R) by (destruct Hxy; lra).
      apply (Rmult_eq_reg_r x); [| exact Hx]. nra.
    + left. left.
      apply (Rmult_eq_reg_r (x + y)); [| exact Hz]. nra.
Qed.

Lemma one_is_valid_epsilon : (0 < 1 <= max_epsilon)%R.
Proof. split; [lra | exact max_epsilon_above_one]. Qed.

Lemma eigenvalues_descending_from_one_witness :
  (0 < 1 <= max_epsilon)%R /\
  well_formed two_points_distances /\
  eigensolver_contract two_points_matrix 2
    (symmetric_pair_solver false two_points_matrix 2) /\
  exists obj,
    DiffusionMaps.__init__ two_points_search symmetric_pair_solver
      [0%R; 1%R] (Finite 1) None 2 true tt false = Ok obj /\
    DiffusionMaps.kernel_matrix obj = two_points_matrix /\
    length (DiffusionMaps.eigenvalues obj) = 2 /\
    descending (DiffusionMaps.eigenvalues obj) /\
    (Rabs (hd 0 (DiffusionMaps.eigenvalues obj) - 1) <= 1e-6)%R.
Proof.
  split; [exact one_is_valid_epsilon |].
  split; [exact two_points_well_formed |].
  split; [exact two_points_contract |].
  destruct (symmetric_pair_solver false two_points_matrix 2)
    as [pairs | e] eqn:Hsolve; [| discriminate].
  pose proof (@init_proceeds R unit two_points_search symmetric_pair_solver
                [0%R; 1%R] (Finite 1) None 2 true tt false
                two_points_distances two_points_matrix pairs
                eq_refl two_points_kernel Hsolve) as Hinit.
  eexists. split; [exact Hinit |].
  pose proof two_points_contract as Hcontract.
  destruct (@eigenvalues_descending_from_one R unit two_points_search
              symmetric_pair_solver [0%R; 1%R] 1 None 2 true tt false
              two_points_distances two_points_matrix _
              one_is_valid_epsilon eq_refl two_points_well_formed
              two_points_finite eq_refl two_points_diagonal
              two_points_kernel Hcontract Hinit)
    as [Hkm [Hlen [_ [Hdesc [_ Hlargest]]]]].
  split; [exact Hkm |]. split; [exact Hlen |]. split; [exact Hdesc |].
  exact (proj2 (Hlargest eq_refl (le_S 1 1 (le_n 1)))).
Defined.

(** ** Four collinear points: kernel values and row sums *)

Lemma collinear_distances_diagonal (i : nat) :
  i < fst (shape collinear_distances) ->
  stored_entry collinear_distances i i = Some (Finite 0).
Proof.
  intros Hi. simpl in Hi.
  destruct i as [| [| [| [| i]]]]; try reflexivity. lia.
Qed.

Lemma kernel_entries_unit_interval_witness :
  (0 < 1 <= max_epsilon)%R /\
  Forall is_distance (data collinear_distances) /\
  exists v,
    nth_error
      (data (DiffusionMaps._compute_kernel_matrix (Finite 1)
               collinear_distances)) 2
    = Some (Finite v) /\
    (0 < v <= 1)%R.
Proof.
  split; [exact one_is_valid_epsilon |].
  split; [exact collinear_distances_are_distances |].
  destruct (@kernel_entries_unit_interval 1 collinear_distances
              one_is_valid_epsilon collinear_distances_are_distances)
    as [_ [Hentry _]].
  destruct (Hentry 2 (Finite 2) eq_refl) as [v [Hkm [_ [Hrange [Hpos _]]]]].
  exists v. split; [exact Hkm |]. split; [| lra].
  apply Hpos. simpl. lra.
Defined.

Lemma normalized_rows_sum_to_one_witness :
  (0 < 1 <= max_epsilon)%R /\
  well_formed collinear_distances /\
  finite_data collinear_distances /\
  exists M,
    DiffusionMaps.init_kernel_matrix (Finite 1) true collinear_distances
    = Ok M /\
    shape M = (4, 4) /\
    row_values M 0 <> [] /\
    (Rabs (row_sum M 0 - 1) <= 1e-9)%R.
Proof.
  split; [exact one_is_valid_epsilon |].
  split; [exact collinear_distances_well_formed |].
  split; [exact collinear_distances_finite |].
  destruct (@normalized_rows_sum_to_one 1 collinear_distances
              one_is_valid_epsilon collinear_distances_well_formed
              collinear_distances_finite collinear_distances_diagonal)
    as [M [HM [Hshape [_ [_ [Hrows _]]]]]].
  exists M. split; [exact HM |]. split; [exact Hshape |].
  destruct (Hrows 0) as [_ [Hne [_ Hsum]]]; [simpl; lia |].
  split; [exact Hne | exact Hsum].
Defined.

Lemma make_stochastic_matrix_probability_rows_witness :
  well_formed example_weights /\
  Forall nonnegative (data example_weights) /\
  exists m',
    make_stochastic_matrix example_weights = (m', Ok tt) /\
    length (row_values m' 1) = 3 /\
    Forall probability (row_values m' 1).
Proof.
  split; [exact example_weights_well_formed |].
  split; [exact example_weights_nonnegative |].
  destruct (@make_stochastic_matrix_probability_rows example_weights
              example_weights_well_formed example_weights_nonnegative)
    as [m' [Hrun Hrows]].
  exists m'. split; [exact Hrun |].
  apply (Hrows 1).
  - simpl. lia.
  - unfold row_sum, row_values, row_slice, slice. simpl. lra.
Defined.
